(** * QAbstractGrpcClient: the client facade of QtProtobuf's gRPC layer

    A shallow embedding of [src/grpc/qabstractgrpcclient.cpp].  The facade is
    a [QObject] with a private part ([QAbstractGrpcClientPrivate]); stream and
    reply objects live on the C++ heap and are shared through
    [std::shared_ptr].  The embedding keeps an object store indexed by
    pointers, the signal/slot connections made by [connect], the pending
    [QTimer::singleShot] callbacks, and the traces: the emissions of the
    facade's [error] signal, the requests handed to the channel, and for each
    request the thread that issued it with the callers that were blocked in
    [invokeMethod] at that moment. *)

From stdpp Require Import gmap strings list.
From Stdlib Require Import Strings.Byte.

(** ** Values *)

Definition Thread := nat.
Definition ptr := nat.
Definition QByteArray := list Byte.byte.
Definition StreamHandler := nat.
Definition SerializerPtr := nat.

#[global] Instance byte_eq_decision : EqDecision Byte.byte := Byte.byte_eq_dec.

(** Modelled from the spec: the status codes of [QGrpcStatus] (declared in
    qgrpcstatus.h): [Ok], [Unknown], and the channel-specific codes, which
    this file only passes through. *)
Inductive StatusCode : Type :=
| Ok
| Unknown
| ChannelCode (n : nat).

#[global] Instance StatusCode_eq_decision : EqDecision StatusCode.
Proof. solve_decision. Defined.

Record QGrpcStatus : Type := mkStatus {
  code : StatusCode;
  message : string
}.

#[global] Instance QGrpcStatus_eq_decision : EqDecision QGrpcStatus.
Proof. solve_decision. Defined.

(** Modelled from the spec: [QGrpcStatus::operator!=(StatusCode)] compares by
    code only. *)
Definition status_ne (s : QGrpcStatus) (c : StatusCode) : bool :=
  negb (bool_decide (code s = c)).

Definition noChannelStatus : QGrpcStatus :=
  mkStatus Unknown "No channel(s) attached."%string.

(** A signal of a [QGrpcStream]. *)
Inductive StreamSignal : Type :=
| SigError (status : QGrpcStatus)
| SigFinished.

(** The channel collaborator.  [ch_call] is the synchronous call primitive
    [call(method, service, args, ret)]: it returns the status and the new
    contents of the out-parameter [ret].  [ch_subscribe method service arg]
    lists the signals of the stream being subscribed that the channel emits
    before [subscribe(stream, service, client)] returns to
    [QAbstractGrpcClient::subscribe] (a channel may report a failure or the
    end of the stream at once); signals emitted later are events of their
    own. *)
Record QAbstractGrpcChannel : Type := mkChannel {
  ch_thread : Thread;
  ch_serializer : SerializerPtr;
  ch_call : string -> string -> QByteArray -> QByteArray -> QGrpcStatus * QByteArray;
  ch_subscribe : string -> string -> QByteArray -> list StreamSignal
}.

(** Modelled from the spec: the data of a [QGrpcStream] (declared in
    qgrpcstream.h): method, argument bytes, the ordered handler list and the
    owning channel. *)
Record QGrpcStream : Type := mkStream {
  s_method : string;
  s_arg : QByteArray;
  s_handlers : list StreamHandler;
  s_channel : QAbstractGrpcChannel
}.

(** Modelled from the spec: [QGrpcStream::operator==]; two streams are
    equivalent iff method and argument bytes are identical. *)
Definition QGrpcStream_eq (a b : QGrpcStream) : Prop :=
  s_method a = s_method b /\ s_arg a = s_arg b.

#[global] Instance QGrpcStream_eq_decision a b : Decision (QGrpcStream_eq a b).
Proof. unfold QGrpcStream_eq. apply _. Defined.

(** Modelled from the spec: [QGrpcStream::addHandler] appends to the handler
    list. *)
Definition addHandler (h : StreamHandler) (s : QGrpcStream) : QGrpcStream :=
  mkStream (s_method s) (s_arg s) (s_handlers s ++ [h]) (s_channel s).

(** ** The facade's private part *)

Record QAbstractGrpcClientPrivate : Type := mkPrivate {
  channel : option QAbstractGrpcChannel;
  service : string;
  serializer : SerializerPtr;
  activeStreams : list ptr
}.

(** ** Connections, timers, requests *)

(** A slot made by [connect] with a lambda: [connected] is the state of the
    [QMetaObject::Connection]; [captured] tells whether the lambda's copy of
    the shared pointer is still set.  Disconnecting destroys the lambda and
    with it the copy. *)
Record Slot : Type := mkSlot {
  connected : bool;
  captured : bool
}.

Definition liveSlot : Slot := mkSlot true true.
Definition deadSlot : Slot := mkSlot false false.

Definition disconnect (s : Slot) : Slot := deadSlot.
Definition reset (s : Slot) : Slot := mkSlot (connected s) false.

Record Wiring : Type := mkWiring {
  errorConnection : Slot;
  finishedConnection : Slot
}.

(** A pending [QTimer::singleShot] callback of the error path: it holds a
    [std::weak_ptr] to the stream and a copy of the method name. *)
Record SingleShot : Type := mkSingleShot {
  deadline : nat;
  weakStream : ptr;
  t_method : string
}.

Inductive ChannelRequest : Type :=
| ChCall (method svc : string) (arg : QByteArray)
| ChCallAsync (method svc : string) (arg : QByteArray) (reply : ptr)
| ChSubscribe (stream : ptr) (svc : string).

#[global] Instance ChannelRequest_eq_decision : EqDecision ChannelRequest.
Proof. solve_decision. Defined.

(** ** The world *)

Record World : Type := mkWorld {
  dPtr : QAbstractGrpcClientPrivate;
  thread : Thread;
  streamObjs : gmap ptr QGrpcStream;
  streamWiring : gmap ptr Wiring;
  replyWiring : gmap ptr Wiring;
  holders : gmap ptr nat;
  timers : list SingleShot;
  clock : nat;
  errorSignal : list QGrpcStatus;
  channelLog : list ChannelRequest;
  nextPtr : ptr;
  channelContext : list (Thread * list Thread)
}.

Definition set_dPtr (d : QAbstractGrpcClientPrivate) (w : World) : World :=
  mkWorld d (thread w) (streamObjs w) (streamWiring w) (replyWiring w)
    (holders w) (timers w) (clock w) (errorSignal w) (channelLog w) (nextPtr w)
    (channelContext w).

Definition set_streamObjs (m : gmap ptr QGrpcStream) (w : World) : World :=
  mkWorld (dPtr w) (thread w) m (streamWiring w) (replyWiring w)
    (holders w) (timers w) (clock w) (errorSignal w) (channelLog w) (nextPtr w)
    (channelContext w).

Definition set_streamWiring (m : gmap ptr Wiring) (w : World) : World :=
  mkWorld (dPtr w) (thread w) (streamObjs w) m (replyWiring w)
    (holders w) (timers w) (clock w) (errorSignal w) (channelLog w) (nextPtr w)
    (channelContext w).

Definition set_replyWiring (m : gmap ptr Wiring) (w : World) : World :=
  mkWorld (dPtr w) (thread w) (streamObjs w) (streamWiring w) m
    (holders w) (timers w) (clock w) (errorSignal w) (channelLog w) (nextPtr w)
    (channelContext w).

Definition set_holders (m : gmap ptr nat) (w : World) : World :=
  mkWorld (dPtr w) (thread w) (streamObjs w) (streamWiring w) (replyWiring w)
    m (timers w) (clock w) (errorSignal w) (channelLog w) (nextPtr w)
    (channelContext w).

Definition set_timers (l : list SingleShot) (w : World) : World :=
  mkWorld (dPtr w) (thread w) (streamObjs w) (streamWiring w) (replyWiring w)
    (holders w) l (clock w) (errorSignal w) (channelLog w) (nextPtr w)
    (channelContext w).

Definition set_clock (t : nat) (w : World) : World :=
  mkWorld (dPtr w) (thread w) (streamObjs w) (streamWiring w) (replyWiring w)
    (holders w) (timers w) t (errorSignal w) (channelLog w) (nextPtr w)
    (channelContext w).

Definition set_errorSignal (l : list QGrpcStatus) (w : World) : World :=
  mkWorld (dPtr w) (thread w) (streamObjs w) (streamWiring w) (replyWiring w)
    (holders w) (timers w) (clock w) l (channelLog w) (nextPtr w)
    (channelContext w).

Definition set_channelLog (l : list ChannelRequest) (w : World) : World :=
  mkWorld (dPtr w) (thread w) (streamObjs w) (streamWiring w) (replyWiring w)
    (holders w) (timers w) (clock w) (errorSignal w) l (nextPtr w)
    (channelContext w).

Definition set_nextPtr (p : ptr) (w : World) : World :=
  mkWorld (dPtr w) (thread w) (streamObjs w) (streamWiring w) (replyWiring w)
    (holders w) (timers w) (clock w) (errorSignal w) (channelLog w) p
    (channelContext w).

Definition set_channelContext (l : list (Thread * list Thread)) (w : World) : World :=
  mkWorld (dPtr w) (thread w) (streamObjs w) (streamWiring w) (replyWiring w)
    (holders w) (timers w) (clock w) (errorSignal w) (channelLog w) (nextPtr w)
    l.

Definition set_channel (c : option QAbstractGrpcChannel)
    (d : QAbstractGrpcClientPrivate) : QAbstractGrpcClientPrivate :=
  mkPrivate c (service d) (serializer d) (activeStreams d).

Definition set_serializer (s : SerializerPtr)
    (d : QAbstractGrpcClientPrivate) : QAbstractGrpcClientPrivate :=
  mkPrivate (channel d) (service d) s (activeStreams d).

Definition set_activeStreams (l : list ptr)
    (d : QAbstractGrpcClientPrivate) : QAbstractGrpcClientPrivate :=
  mkPrivate (channel d) (service d) (serializer d) l.

(** What a member function or a slot can do: return, throw, dereference a
    null shared pointer, or (in the embedding only) run out of relay fuel. *)
Inductive Outcome (A : Type) : Type :=
| Done (w : World) (r : A)
| Thrown (what : string) (w : World)
| NullDeref
| OutOfFuel.

Arguments Done {A} w r.
Arguments Thrown {A} what w.
Arguments NullDeref {A}.
Arguments OutOfFuel {A}.

(** ** Primitives *)

(** [emit error(status)]. *)
Definition emit_error (status : QGrpcStatus) (w : World) : World :=
  set_errorSignal (errorSignal w ++ [status]) w.

(** A member function of the channel is entered from thread [on] while the
    threads [waiting] are blocked in [invokeMethod]: the request is logged
    together with that context. *)
Definition request (on : Thread) (waiting : list Thread) (r : ChannelRequest)
    (w : World) : World :=
  set_channelContext (channelContext w ++ [(on, waiting)])
    (set_channelLog (channelLog w ++ [r]) w).

(** [QMetaObject::invokeMethod(this, functor, Qt::BlockingQueuedConnection, &ret)]
    called from thread [cur] while [waiting] are blocked already: the functor
    runs in the receiver's thread, with [cur] blocked as well until it has
    returned, and its return value is stored in [ret]. *)
Definition invokeMethod {A : Type} (cur : Thread) (waiting : list Thread) (w : World)
    (functor : Thread -> list Thread -> World -> Outcome A) : Outcome A :=
  functor (thread w) (cur :: waiting) w.

(** The constructor; the default serializer comes from
    [QProtobufSerializerRegistry], which is not part of this file. *)
Definition QAbstractGrpcClient (svc : string) (defaultSerializer : SerializerPtr)
    (owner : Thread) : World :=
  mkWorld (mkPrivate None svc defaultSerializer []) owner ∅ ∅ ∅ ∅ [] 0 [] [] 0 [].

(** ** attachChannel *)

Definition attachChannel (cur : Thread) (ch : option QAbstractGrpcChannel)
    (w : World) : Outcome unit :=
  match ch with
  | None => NullDeref
  | Some c =>
      if negb (ch_thread c =? cur) then Thrown "Call from another thread"%string w
      else
        let d1 := set_channel (Some c) (dPtr w) in
        let d2 := set_serializer (ch_serializer c) d1 in
        Done (set_dPtr d2 w) tt
  end.

(** ** Blocking call *)

Fixpoint call_rec (relay : nat) (cur : Thread) (waiting : list Thread)
    (method : string) (arg ret : QByteArray) (w : World)
    : Outcome (QGrpcStatus * QByteArray) :=
  if negb (thread w =? cur) then
    match relay with
    | 0 => OutOfFuel
    | S k => invokeMethod cur waiting w
               (fun t callers w' => call_rec k t callers method arg ret w')
    end
  else
    let '(w1, callStatus, ret1) :=
      match channel (dPtr w) with
      | Some ch =>
          let '(st, r) := ch_call ch method (service (dPtr w)) arg ret in
          (request cur waiting (ChCall method (service (dPtr w)) arg) w, st, r)
      | None => (w, noChannelStatus, ret)
      end in
    let w2 := if status_ne callStatus Ok then emit_error callStatus w1 else w1 in
    Done w2 (callStatus, ret1).

Definition call (cur : Thread) (method : string) (arg ret : QByteArray)
    (w : World) : Outcome (QGrpcStatus * QByteArray) :=
  call_rec 1 cur [] method arg ret w.

(** ** Shared ownership *)

Definition slot_refs (s : Slot) : nat := if captured s then 1 else 0.

Definition wiring_refs (o : option Wiring) : nat :=
  match o with
  | Some wi => slot_refs (errorConnection wi) + slot_refs (finishedConnection wi)
  | None => 0
  end.

Definition registry_refs (l : list ptr) (p : ptr) : nat :=
  length (filter (fun q => q = p) l).

(** [use_count] of the shared pointers to stream [p]: the handles given to
    callers, the registry entries and the copies captured by the two
    lambdas.  A [std::weak_ptr] is not counted. *)
Definition use_count (w : World) (p : ptr) : nat :=
  default 0 (holders w !! p)
  + registry_refs (activeStreams (dPtr w)) p
  + wiring_refs (streamWiring w !! p).

(** [weakStream.lock()] *)
Definition lock (w : World) (p : ptr) : option ptr :=
  if decide (0 < use_count w p) then Some p else None.

(** A caller receives a copy of the shared pointer. *)
Definition hold (p : ptr) (w : World) : World :=
  set_holders (<[p := S (default 0 (holders w !! p))]> (holders w)) w.

(** A caller drops one copy. *)
Definition release (p : ptr) (w : World) : World :=
  match holders w !! p with
  | Some (S n) => set_holders (<[p := n]> (holders w)) w
  | _ => w
  end.

(** [new QGrpcStream(...)]: the deleter is [deleteLater], so the store keeps
    the object; whether it is still owned is read from [use_count]. *)
Definition new_stream (s : QGrpcStream) (w : World) : World :=
  set_nextPtr (S (nextPtr w)) (set_streamObjs (<[nextPtr w := s]> (streamObjs w)) w).

(** [*a == *b] *)
Definition deref_eq (w : World) (a b : ptr) : Prop :=
  match streamObjs w !! a, streamObjs w !! b with
  | Some x, Some y => QGrpcStream_eq x y
  | _, _ => False
  end.

#[global] Instance deref_eq_decision w a b : Decision (deref_eq w a b).
Proof. unfold deref_eq. destruct (streamObjs w !! a), (streamObjs w !! b); apply _. Defined.

(** [std::find_if] over [dPtr->activeStreams] with the predicate
    [*activeStream == *stream]: the position and the element found. *)
Definition find_active (w : World) (stream : ptr) : option (nat * ptr) :=
  list_find (fun activeStream => deref_eq w activeStream stream)
    (activeStreams (dPtr w)).

(** ** Asynchronous call *)

Fixpoint call_async_rec (relay : nat) (cur : Thread) (waiting : list Thread)
    (method : string) (arg : QByteArray) (w : World) : Outcome (option ptr) :=
  if negb (thread w =? cur) then
    match relay with
    | 0 => OutOfFuel
    | S k => invokeMethod cur waiting w
               (fun t callers w' => call_async_rec k t callers method arg w')
    end
  else
    match channel (dPtr w) with
    | Some ch =>
        let reply := nextPtr w in
        let w1 := set_nextPtr (S reply) w in
        let w2 := set_replyWiring
                    (<[reply := mkWiring liveSlot liveSlot]> (replyWiring w1)) w1 in
        let w3 := request cur waiting
                    (ChCallAsync method (service (dPtr w2)) arg reply) w2 in
        Done (hold reply w3) (Some reply)
    | None => Done (emit_error noChannelStatus w) None
    end.

Definition call_async (cur : Thread) (method : string) (arg : QByteArray)
    (w : World) : Outcome (option ptr) :=
  call_async_rec 1 cur [] method arg w.

(** The lambda connected to [QGrpcAsyncReply::error]. *)
Definition reply_error_slot (reply : ptr) (status : QGrpcStatus) (wi : Wiring)
    (w : World) : World :=
  let w1 := emit_error status w in
  let wi1 := mkWiring (errorConnection wi) (disconnect (finishedConnection wi)) in
  let wi2 := mkWiring (disconnect (errorConnection wi1)) (finishedConnection wi1) in
  let wi3 := mkWiring (reset (errorConnection wi2)) (finishedConnection wi2) in
  set_replyWiring (<[reply := wi3]> (replyWiring w1)) w1.

(** The lambda connected to [QGrpcAsyncReply::finished]. *)
Definition reply_finished_slot (reply : ptr) (wi : Wiring) (w : World) : World :=
  let wi1 := mkWiring (errorConnection wi) (disconnect (finishedConnection wi)) in
  let wi2 := mkWiring (disconnect (errorConnection wi1)) (finishedConnection wi1) in
  let wi3 := mkWiring (errorConnection wi2) (reset (finishedConnection wi2)) in
  set_replyWiring (<[reply := wi3]> (replyWiring w)) w.

(** The reply emits [error(status)]: the slot runs if it is connected. *)
Definition reply_error (reply : ptr) (status : QGrpcStatus) (w : World) : World :=
  match replyWiring w !! reply with
  | Some wi =>
      if connected (errorConnection wi) then reply_error_slot reply status wi w
      else w
  | None => w
  end.

(** The reply emits [finished()]. *)
Definition reply_finished (reply : ptr) (w : World) : World :=
  match replyWiring w !! reply with
  | Some wi =>
      if connected (finishedConnection wi) then reply_finished_slot reply wi w
      else w
  | None => w
  end.

(** ** The paths of a stream *)

(** [QTimer::singleShot(msec, this, ...)] with the reconnection lambda. *)
Definition singleShot (msec : nat) (weak : ptr) (method : string) (w : World) : World :=
  set_timers (timers w ++ [mkSingleShot (clock w + msec) weak method]) w.

(** The lambda connected to [QGrpcStream::error]. *)
Definition stream_error_slot (stream : ptr) (status : QGrpcStatus) (w : World) : World :=
  let w1 := emit_error status w in
  let method := default EmptyString (s_method <$> streamObjs w1 !! stream) in
  singleShot 1000 stream method w1.

(** The lambda connected to [QGrpcStream::finished]. *)
Definition stream_finished_slot (stream : ptr) (wi : Wiring) (w : World) : World :=
  let w1 :=
    match find_active w stream with
    | Some (it, _) =>
        set_dPtr (set_activeStreams (delete it (activeStreams (dPtr w))) (dPtr w)) w
    | None => w
    end in
  let wi1 := mkWiring (disconnect (errorConnection wi)) (finishedConnection wi) in
  let wi2 := mkWiring (errorConnection wi1) (disconnect (finishedConnection wi1)) in
  let wi3 := mkWiring (errorConnection wi2) (reset (finishedConnection wi2)) in
  set_streamWiring (<[stream := wi3]> (streamWiring w1)) w1.

(** The stream emits [error(status)]: the slot runs if it is connected. *)
Definition stream_error (stream : ptr) (status : QGrpcStatus) (w : World) : World :=
  match streamWiring w !! stream with
  | Some wi =>
      if connected (errorConnection wi) then stream_error_slot stream status w
      else w
  | None => w
  end.

(** The stream emits [finished()]. *)
Definition stream_finished (stream : ptr) (w : World) : World :=
  match streamWiring w !! stream with
  | Some wi =>
      if connected (finishedConnection wi) then stream_finished_slot stream wi w
      else w
  | None => w
  end.

(** The signals a channel emits for [stream] before its [subscribe]
    returns, delivered in order.  The slots are connected with the facade as
    context and the channel runs in the facade's thread, so each runs at
    once. *)
Fixpoint deliver (stream : ptr) (sigs : list StreamSignal) (w : World) : World :=
  match sigs with
  | [] => w
  | SigError status :: rest => deliver stream rest (stream_error stream status w)
  | SigFinished :: rest => deliver stream rest (stream_finished stream w)
  end.

(** ** subscribe

    Line 183 hands the new stream to the channel while both lambdas are
    already connected and before line 184 registers it, so the signals the
    channel emits inside that call run the lambdas against a registry that
    does not hold the stream yet.  A signal of another stream emitted there
    acts like one emitted just before the call, and in the timer lambda and
    in the two [call] functions nothing but the return follows the channel
    call, so a signal emitted inside it acts like one emitted next to it;
    the events below cover those. *)

Fixpoint subscribe_rec (relay : nat) (cur : Thread) (waiting : list Thread)
    (method : string) (arg : QByteArray) (handler : StreamHandler) (w : World)
    : Outcome (option ptr) :=
  if negb (thread w =? cur) then
    match relay with
    | 0 => OutOfFuel
    | S k => invokeMethod cur waiting w
               (fun t callers w' => subscribe_rec k t callers method arg handler w')
    end
  else
    match channel (dPtr w) with
    | Some ch =>
        let stream := nextPtr w in
        let w1 := new_stream (mkStream method arg [handler] ch) w in
        match find_active w1 stream with
        | Some (_, it) =>
            let w2 := set_streamObjs
                        (alter (addHandler handler) it (streamObjs w1)) w1 in
            Done (hold it w2) (Some it)
        | None =>
            let w2 := set_streamWiring
                        (<[stream := mkWiring liveSlot liveSlot]> (streamWiring w1)) w1 in
            let w3 := request cur waiting
                        (ChSubscribe stream (service (dPtr w2))) w2 in
            let w4 := deliver stream
                        (ch_subscribe ch method (service (dPtr w3)) arg) w3 in
            let w5 := set_dPtr
                        (set_activeStreams (activeStreams (dPtr w4) ++ [stream])
                           (dPtr w4)) w4 in
            Done (hold stream w5) (Some stream)
        end
    | None => Done (emit_error noChannelStatus w) None
    end.

Definition subscribe (cur : Thread) (method : string) (arg : QByteArray)
    (handler : StreamHandler) (w : World) : Outcome (option ptr) :=
  subscribe_rec 1 cur [] method arg handler w.

(** ** The reconnection timer *)

(** The reconnection lambda run by the [i]-th pending timer once it is due;
    it runs from the event loop of the facade's thread, nobody waiting. *)
Definition reconnect_slot (t : SingleShot) (w : World) : Outcome unit :=
  match lock w (weakStream t) with
  | Some stream =>
      match channel (dPtr w) with
      | Some ch =>
          Done (request (thread w) [] (ChSubscribe stream (service (dPtr w))) w) tt
      | None => NullDeref
      end
  | None => Done w tt
  end.

Definition timeout (i : nat) (w : World) : Outcome unit :=
  match timers w !! i with
  | Some t =>
      if deadline t <=? clock w
      then reconnect_slot t (set_timers (delete i (timers w)) w)
      else Done w tt
  | None => Done w tt
  end.

Definition elapse (msec : nat) (w : World) : World :=
  set_clock (clock w + msec) w.

(** ** Operations and runs *)

Inductive Op : Type :=
| OpAttachChannel (cur : Thread) (ch : option QAbstractGrpcChannel)
| OpCall (cur : Thread) (method : string) (arg ret : QByteArray)
| OpCallAsync (cur : Thread) (method : string) (arg : QByteArray)
| OpSubscribe (cur : Thread) (method : string) (arg : QByteArray) (handler : StreamHandler)
| OpRelease (p : ptr)
| EvReplyError (reply : ptr) (status : QGrpcStatus)
| EvReplyFinished (reply : ptr)
| EvStreamError (stream : ptr) (status : QGrpcStatus)
| EvStreamFinished (stream : ptr)
| EvElapse (msec : nat)
| EvTimeout (i : nat).

(** The world an outcome leaves behind; a thrown exception can be caught by
    the caller, a null dereference cannot. *)
Definition after {A : Type} (o : Outcome A) : option World :=
  match o with
  | Done w _ => Some w
  | Thrown _ w => Some w
  | NullDeref => None
  | OutOfFuel => None
  end.

Definition exec (o : Op) (w : World) : option World :=
  match o with
  | OpAttachChannel cur ch => after (attachChannel cur ch w)
  | OpCall cur method arg ret => after (call cur method arg ret w)
  | OpCallAsync cur method arg => after (call_async cur method arg w)
  | OpSubscribe cur method arg handler => after (subscribe cur method arg handler w)
  | OpRelease p => Some (release p w)
  | EvReplyError reply status => Some (reply_error reply status w)
  | EvReplyFinished reply => Some (reply_finished reply w)
  | EvStreamError stream status => Some (stream_error stream status w)
  | EvStreamFinished stream => Some (stream_finished stream w)
  | EvElapse msec => Some (elapse msec w)
  | EvTimeout i => after (timeout i w)
  end.

Fixpoint run (ops : list Op) (w : World) : option World :=
  match ops with
  | [] => Some w
  | o :: rest =>
      match exec o w with
      | Some w' => run rest w'
      | None => None
      end
  end.

(** ** Sample data *)

Definition echoChannel (t : Thread) : QAbstractGrpcChannel :=
  mkChannel t 7 (fun _ _ arg _ => (mkStatus Ok EmptyString, arg))
    (fun _ _ _ => []).

Definition failingChannel (t : Thread) : QAbstractGrpcChannel :=
  mkChannel t 7 (fun _ _ _ ret => (mkStatus (ChannelCode 14) "unavailable"%string, ret))
    (fun _ _ _ => []).

(** A channel that reports the end of every stream before its [subscribe]
    returns. *)
Definition closingChannel (t : Thread) : QAbstractGrpcChannel :=
  mkChannel t 7 (fun _ _ arg _ => (mkStatus Ok EmptyString, arg))
    (fun _ _ _ => [SigFinished]).

Definition freshClient : World := QAbstractGrpcClient "svc"%string 0 1.

(** A facade owned by thread 1 with an echo channel attached and two
    subscriptions, [Feed] (stream 0) and [News] (stream 1). *)
Definition feedOps : list Op :=
  [OpAttachChannel 1 (Some (echoChannel 1));
   OpSubscribe 1 "Feed"%string [] 3;
   OpSubscribe 1 "News"%string [] 5].

Definition feedWorld : World :=
  Eval vm_compute in default freshClient (run feedOps freshClient).

Definition unavailable : QGrpcStatus :=
  mkStatus (ChannelCode 14) "unavailable"%string.

(** The [Feed] stream fails and the delay elapses while the stream is still
    registered. *)
Definition failedOps : list Op :=
  feedOps ++ [EvStreamError 0 unavailable; EvElapse 1000].

Definition failedWorld : World :=
  Eval vm_compute in default freshClient (run failedOps freshClient).

(** The [Feed] stream fails, then finishes, and its caller drops the handle
    before the delay elapses. *)
Definition abandonedOps : list Op :=
  feedOps ++ [EvStreamError 0 unavailable; EvStreamFinished 0; OpRelease 0;
              EvElapse 1000].

Definition abandonedWorld : World :=
  Eval vm_compute in default freshClient (run abandonedOps freshClient).

(** The [Feed] stream fails and then finishes while its caller keeps the
    handle; the delay elapses. *)
Definition finishedHeldOps : list Op :=
  feedOps ++ [EvStreamError 0 unavailable; EvStreamFinished 0; EvElapse 1000].

Definition finishedHeldWorld : World :=
  Eval vm_compute in default freshClient (run finishedHeldOps freshClient).

(** A facade of thread 1 whose channel ends the [Feed] stream before its
    [subscribe] returns. *)
Definition closedOps : list Op :=
  [OpAttachChannel 1 (Some (closingChannel 1));
   OpSubscribe 1 "Feed"%string [] 3].

Definition closedWorld : World :=
  Eval vm_compute in default freshClient (run closedOps freshClient).

(** ** Invariants of the facade *)

Definition liveWiring : Wiring := mkWiring liveSlot liveSlot.
Definition deadWiring : Wiring := mkWiring deadSlot deadSlot.

(** No two entries of the registry are equivalent streams. *)
Definition registry_distinct (w : World) : Prop :=
  forall i j a b,
    activeStreams (dPtr w) !! i = Some a ->
    activeStreams (dPtr w) !! j = Some b ->
    deref_eq w a b -> i = j.

(** What every operation keeps true: the registry holds allocated, pairwise
    inequivalent streams that went through [connect]; a stream whose paths
    are connected is in the registry, any other has both connections gone;
    pointers are handed out in order; nothing is allocated and no timer is
    armed before a channel is attached. *)
Record consistent (w : World) : Prop := mkConsistent {
  c_distinct : registry_distinct w;
  c_allocated : forall p, p ∈ activeStreams (dPtr w) -> is_Some (streamObjs w !! p);
  c_wired : forall p, p ∈ activeStreams (dPtr w) -> is_Some (streamWiring w !! p);
  c_wiring : forall p wi, streamWiring w !! p = Some wi ->
               (wi = liveWiring /\ p ∈ activeStreams (dPtr w)) \/ wi = deadWiring;
  c_replies : forall p wi, replyWiring w !! p = Some wi ->
                wi = liveWiring \/ wi = deadWiring;
  c_fresh_objs : forall p, is_Some (streamObjs w !! p) -> p < nextPtr w;
  c_fresh_wiring : forall p, is_Some (streamWiring w !! p) -> p < nextPtr w;
  c_fresh_replies : forall p, is_Some (replyWiring w !! p) -> p < nextPtr w;
  c_channel : 0 < nextPtr w -> is_Some (channel (dPtr w));
  c_timers : forall t, t ∈ timers w -> is_Some (streamWiring w !! weakStream t);
  c_fresh_holders : forall p, is_Some (holders w !! p) -> p < nextPtr w
}.

Ltac destruct_consistent H :=
  destruct H as [Hdistinct Hallocated Hwired Hwiring Hreplies Hfobjs Hfwiring
                 Hfreplies Hchannel Htimers Hfholders].

(** A change of a stream object that keeps its identity. *)
Definition keeps_key (g : QGrpcStream -> QGrpcStream) : Prop :=
  forall x, s_method (g x) = s_method x /\ s_arg (g x) = s_arg x.

(** ** The serializer accessor *)

(** [QAbstractGrpcClient::serializer()]: the raw pointer held by
    [dPtr->serializer]. *)
Definition QAbstractGrpcClient_serializer (w : World) : SerializerPtr :=
  serializer (dPtr w).

(** An [attachChannel] call that is handed a null shared pointer. *)
Definition attaches_null (o : Op) : bool :=
  match o with
  | OpAttachChannel _ None => true
  | _ => false
  end.

(** No registered stream has the given method and argument. *)
Definition unregistered (w : World) (method : string) (arg : QByteArray) : Prop :=
  forall q s, q ∈ activeStreams (dPtr w) -> streamObjs w !! q = Some s ->
    ~ (s_method s = method /\ s_arg s = arg).

(** A facade nobody has used with a channel: nothing was sent, nothing was
    allocated, and every notification so far is the no-channel status. *)
Definition untouched (w : World) : Prop :=
  channelLog w = [] /\
  nextPtr w = 0 /\
  Forall (fun status => status = noChannelStatus) (errorSignal w).

(** The callers that are blocked while the body of an entry point called
    from thread [cur] runs: the caller itself when the call is relayed. *)
Definition blocked_callers (cur : Thread) (w : World) : list Thread :=
  if thread w =? cur then [] else [cur].

(** Of the signals a channel emits inside [subscribe]: whether the stream
    finishes, and the errors that reach the error path (those before the
    first [finished], which disconnects it). *)
Fixpoint finishes (sigs : list StreamSignal) : bool :=
  match sigs with
  | [] => false
  | SigError _ :: rest => finishes rest
  | SigFinished :: _ => true
  end.

Fixpoint errors_before_finished (sigs : list StreamSignal) : list QGrpcStatus :=
  match sigs with
  | [] => []
  | SigError status :: rest => status :: errors_before_finished rest
  | SigFinished :: _ => []
  end.


(** A request issued from the facade's thread, with nobody or one foreign
    caller blocked. *)
Definition on_facade_thread (owner : Thread) (c : Thread * list Thread) : Prop :=
  c.1 = owner /\ (c.2 = [] \/ exists cur, cur <> owner /\ c.2 = [cur]).

(** ** The thread relay *)

Lemma blocked_callers_owner w : blocked_callers (thread w) w = [].
Proof. unfold blocked_callers. by rewrite Nat.eqb_refl. Qed.

Lemma blocked_callers_foreign cur w :
  cur <> thread w -> blocked_callers cur w = [cur].
Proof.
  intros Hne. unfold blocked_callers.
  assert ((thread w =? cur) = false) as -> by (apply Nat.eqb_neq; congruence).
  reflexivity.
Qed.

(** The blocking call, whoever calls: the body runs on the facade's thread,
    with the caller blocked when it is not on that thread. *)
Lemma call_body cur method arg ret w :
  call cur method arg ret w =
    match channel (dPtr w) with
    | Some ch =>
        let st := (ch_call ch method (service (dPtr w)) arg ret).1 in
        let r := (ch_call ch method (service (dPtr w)) arg ret).2 in
        let w1 := request (thread w) (blocked_callers cur w)
                    (ChCall method (service (dPtr w)) arg) w in
        Done (if status_ne st Ok then emit_error st w1 else w1) (st, r)
    | None => Done (emit_error noChannelStatus w) (noChannelStatus, ret)
    end.
Proof.
  unfold call, blocked_callers. simpl.
  destruct (thread w =? cur) eqn:Hcur; simpl.
  - apply Nat.eqb_eq in Hcur as <-.
    destruct (channel (dPtr w)) as [ch|]; [|reflexivity].
    by destruct (ch_call ch method (service (dPtr w)) arg ret) as [st r].
  - unfold invokeMethod. simpl. rewrite Nat.eqb_refl. simpl.
    destruct (channel (dPtr w)) as [ch|]; [|reflexivity].
    by destruct (ch_call ch method (service (dPtr w)) arg ret) as [st r].
Qed.

Lemma call_async_body cur method arg w :
  call_async cur method arg w =
    match channel (dPtr w) with
    | Some ch =>
        Done (hold (nextPtr w)
                (request (thread w) (blocked_callers cur w)
                   (ChCallAsync method (service (dPtr w)) arg (nextPtr w))
                   (set_replyWiring (<[nextPtr w := liveWiring]> (replyWiring w))
                      (set_nextPtr (S (nextPtr w)) w))))
             (Some (nextPtr w))
    | None => Done (emit_error noChannelStatus w) None
    end.
Proof.
  unfold call_async, blocked_callers. simpl.
  destruct (thread w =? cur) eqn:Hcur; simpl.
  - apply Nat.eqb_eq in Hcur as <-. reflexivity.
  - unfold invokeMethod. simpl. rewrite Nat.eqb_refl. reflexivity.
Qed.

Lemma subscribe_body cur method arg handler w :
  subscribe cur method arg handler w =
    match channel (dPtr w) with
    | Some ch =>
        let stream := nextPtr w in
        let w1 := new_stream (mkStream method arg [handler] ch) w in
        match find_active w1 stream with
        | Some (_, it) =>
            Done (hold it (set_streamObjs
                             (alter (addHandler handler) it (streamObjs w1)) w1))
                 (Some it)
        | None =>
            let w4 := deliver stream (ch_subscribe ch method (service (dPtr w)) arg)
                        (request (thread w) (blocked_callers cur w)
                           (ChSubscribe stream (service (dPtr w)))
                           (set_streamWiring
                              (<[stream := liveWiring]> (streamWiring w)) w1)) in
            Done (hold stream
                    (set_dPtr
                       (set_activeStreams (activeStreams (dPtr w4) ++ [stream])
                          (dPtr w4)) w4))
                 (Some stream)
        end
    | None => Done (emit_error noChannelStatus w) None
    end.
Proof.
  unfold subscribe, blocked_callers. simpl.
  destruct (thread w =? cur) eqn:Hcur; simpl.
  - apply Nat.eqb_eq in Hcur as <-. reflexivity.
  - unfold invokeMethod. simpl. rewrite Nat.eqb_refl. reflexivity.
Qed.

(** The three entry points always return: no exception, no null
    dereference, and one relay is all the recursion there is. *)
Lemma call_returns cur method arg ret w :
  exists w' r, call cur method arg ret w = Done w' r.
Proof.
  rewrite call_body. destruct (channel (dPtr w)) as [ch|]; cbv zeta; eauto.
Qed.

Lemma call_async_returns cur method arg w :
  exists w' r, call_async cur method arg w = Done w' r.
Proof. rewrite call_async_body. destruct (channel (dPtr w)); eauto. Qed.

Lemma subscribe_returns cur method arg handler w :
  exists w' r, subscribe cur method arg handler w = Done w' r.
Proof.
  rewrite subscribe_body. destruct (channel (dPtr w)); [|eauto]. cbv zeta.
  destruct (find_active _ _) as [[i it]|]; eauto.
Qed.

(** More relay fuel changes nothing. *)
Lemma call_rec_fuel k cur method arg ret w :
  call_rec (S k) cur [] method arg ret w = call cur method arg ret w.
Proof.
  unfold call. simpl. destruct (thread w =? cur); [reflexivity|].
  unfold invokeMethod. destruct k; simpl; by rewrite Nat.eqb_refl.
Qed.

(** ** Signals delivered inside the channel's subscribe *)

Lemma deliver_dead p sigs : forall w,
  streamWiring w !! p = Some deadWiring -> deliver p sigs w = w.
Proof.
  induction sigs as [|[status|] rest IH]; intros w Hp; simpl; [done| |].
  - unfold stream_error. rewrite Hp. simpl. by apply IH.
  - unfold stream_finished. rewrite Hp. simpl. by apply IH.
Qed.

(** A new stream is wired and not yet registered: its errors go through the
    error path until a [finished] disconnects both paths, which finds
    nothing to erase. *)
Lemma deliver_shape p sigs : forall w,
  streamWiring w !! p = Some liveWiring ->
  find_active w p = None ->
  deliver p sigs w =
    set_streamWiring
      (if finishes sigs then <[p := deadWiring]> (streamWiring w) else streamWiring w)
      (set_timers
         (timers w ++
            ((fun _ => mkSingleShot (clock w + 1000) p
                         (default EmptyString (s_method <$> streamObjs w !! p)))
               <$> errors_before_finished sigs))
         (set_errorSignal (errorSignal w ++ errors_before_finished sigs) w)).
Proof.
  induction sigs as [|[status|] rest IH]; intros w Hp Hfind; simpl.
  - destruct w. simpl. by rewrite !app_nil_r.
  - unfold stream_error at 1. rewrite Hp. simpl.
    rewrite IH; [|exact Hp|exact Hfind].
    unfold stream_error_slot, singleShot, emit_error, set_streamWiring, set_timers,
      set_errorSignal. simpl. by rewrite <- !app_assoc.
  - unfold stream_finished at 1. rewrite Hp. simpl.
    unfold stream_finished_slot. rewrite Hfind.
    rewrite deliver_dead by (simpl; apply lookup_insert_eq).
    destruct w. simpl. by rewrite !app_nil_r.
Qed.

(** ** Equivalence of streams *)

Lemma deref_eq_objs w w' a b :
  streamObjs w' = streamObjs w -> deref_eq w' a b <-> deref_eq w a b.
Proof. unfold deref_eq. intros ->. reflexivity. Qed.

Lemma deref_eq_refl w p : is_Some (streamObjs w !! p) -> deref_eq w p p.
Proof. intros [s Hs]. unfold deref_eq. rewrite Hs. split; reflexivity. Qed.

Lemma deref_eq_sym w a b : deref_eq w a b -> deref_eq w b a.
Proof.
  unfold deref_eq. destruct (streamObjs w !! a), (streamObjs w !! b); try tauto.
  intros [? ?]. split; congruence.
Qed.

Lemma registry_NoDup w :
  registry_distinct w ->
  (forall p, p ∈ activeStreams (dPtr w) -> is_Some (streamObjs w !! p)) ->
  NoDup (activeStreams (dPtr w)).
Proof.
  intros Hd Ha. apply NoDup_alt. intros i j x Hi Hj.
  apply (Hd i j x x Hi Hj). apply deref_eq_refl, Ha.
  eapply list_elem_of_lookup_2; eauto.
Qed.

(** Operations that leave the registry, the stores and the allocator alone. *)
Lemma consistent_frame w w' :
  dPtr w' = dPtr w ->
  streamObjs w' = streamObjs w ->
  streamWiring w' = streamWiring w ->
  replyWiring w' = replyWiring w ->
  nextPtr w' = nextPtr w ->
  (forall t, t ∈ timers w' -> t ∈ timers w \/ is_Some (streamWiring w !! weakStream t)) ->
  (forall p, is_Some (holders w' !! p) -> is_Some (holders w !! p)) ->
  consistent w -> consistent w'.
Proof.
  intros Hd Ho Hw Hr Hn Ht Hh Hc. destruct_consistent Hc.
  split; rewrite ?Hd, ?Ho, ?Hw, ?Hr, ?Hn; try assumption.
  - intros i j a b Hi Hj He. rewrite Hd in Hi, Hj.
    apply (Hdistinct i j a b Hi Hj). by apply (deref_eq_objs w w').
  - intros t Hin. destruct (Ht t Hin); auto.
  - intros p Hp. auto.
Qed.

Lemma consistent_init svc ser owner : consistent (QAbstractGrpcClient svc ser owner).
Proof.
  split; simpl.
  - intros i j a b Hi. destruct i; discriminate.
  - intros p Hp. by apply elem_of_nil in Hp.
  - intros p Hp. by apply elem_of_nil in Hp.
  - intros p wi Hp. rewrite lookup_empty in Hp. discriminate.
  - intros p wi Hp. rewrite lookup_empty in Hp. discriminate.
  - intros p [x Hp]. rewrite lookup_empty in Hp. discriminate.
  - intros p [x Hp]. rewrite lookup_empty in Hp. discriminate.
  - intros p [x Hp]. rewrite lookup_empty in Hp. discriminate.
  - lia.
  - intros t Ht. by apply elem_of_nil in Ht.
  - intros p [x Hp]. rewrite lookup_empty in Hp. discriminate.
Qed.

Lemma consistent_attachChannel cur ch w w' :
  consistent w -> after (attachChannel cur ch w) = Some w' -> consistent w'.
Proof.
  intros Hc. unfold attachChannel. destruct ch as [c|]; [|discriminate].
  destruct (negb _); simpl; intros [= <-]; [assumption|].
  destruct_consistent Hc. split; simpl; try assumption.
  intros _. eauto.
Qed.

Lemma call_world cur method arg ret w :
  exists w' r, call cur method arg ret w = Done w' r /\
    dPtr w' = dPtr w /\ thread w' = thread w /\
    streamObjs w' = streamObjs w /\ streamWiring w' = streamWiring w /\
    replyWiring w' = replyWiring w /\ holders w' = holders w /\
    timers w' = timers w /\ clock w' = clock w /\ nextPtr w' = nextPtr w.
Proof.
  rewrite call_body. destruct (channel (dPtr w)) as [ch|]; cbv zeta.
  - destruct (status_ne _ Ok); eexists _, _; (split; [reflexivity|]); simpl; tauto.
  - eexists _, _; (split; [reflexivity|]); simpl; tauto.
Qed.

Lemma consistent_call cur method arg ret w w' :
  consistent w -> after (call cur method arg ret w) = Some w' -> consistent w'.
Proof.
  intros Hc. destruct (call_world cur method arg ret w)
    as (w1 & r & -> & Hd & _ & Ho & Hw & Hr & Hh & Ht & _ & Hn).
  simpl. intros [= <-]. apply (consistent_frame w w1); auto.
  - intros t. rewrite Ht. auto.
  - intros p. by rewrite Hh.
Qed.

Lemma consistent_release p w : consistent w -> consistent (release p w).
Proof.
  intros Hc. unfold release.
  destruct (holders w !! p) as [[|n]|] eqn:Hp; try assumption.
  apply (consistent_frame w); auto. simpl.
  intros q. rewrite lookup_insert. case_decide; [subst; eauto|done].
Qed.

Lemma consistent_elapse msec w : consistent w -> consistent (elapse msec w).
Proof. intros Hc. apply (consistent_frame w); auto. Qed.

Lemma consistent_stream_error stream status w :
  consistent w -> consistent (stream_error stream status w).
Proof.
  intros Hc. unfold stream_error.
  destruct (streamWiring w !! stream) as [wi|] eqn:Hwi; [|assumption].
  destruct (connected (errorConnection wi)); [|assumption].
  apply (consistent_frame w); auto. simpl.
  intros t [Ht|Ht]%elem_of_app; [auto|].
  apply list_elem_of_singleton in Ht as ->. simpl. right. rewrite Hwi. eauto.
Qed.

Lemma consistent_timeout i w w' :
  consistent w -> after (timeout i w) = Some w' -> consistent w'.
Proof.
  intros Hc. unfold timeout.
  destruct (timers w !! i) as [t|] eqn:Hti; [|simpl; congruence].
  destruct (deadline t <=? clock w); [|simpl; congruence].
  unfold reconnect_slot. simpl.
  assert (Hsub : forall t', t' ∈ delete i (timers w) -> t' ∈ timers w).
  { intros t'. apply list_elem_of_delete_inv. }
  destruct (lock _ _).
  - destruct (channel (dPtr w)); [|discriminate]. simpl. intros [= <-].
    apply (consistent_frame w); auto.
  - simpl. intros [= <-]. apply (consistent_frame w); auto.
Qed.

Lemma timeout_no_crash i w :
  consistent w -> exists w', timeout i w = Done w' tt.
Proof.
  intros Hc. unfold timeout.
  destruct (timers w !! i) as [t|] eqn:Hti; [|eauto].
  destruct (deadline t <=? clock w); [|eauto].
  unfold reconnect_slot. simpl. destruct (lock _ _); [|eauto].
  destruct (c_channel w Hc) as [ch Hch].
  - assert (Hw : is_Some (streamWiring w !! weakStream t)).
    { apply (c_timers w Hc). eapply list_elem_of_lookup_2; eauto. }
    apply (c_fresh_wiring w Hc) in Hw. lia.
  - rewrite Hch. eauto.
Qed.

Lemma consistent_call_async cur method arg w w' :
  consistent w -> after (call_async cur method arg w) = Some w' -> consistent w'.
Proof.
  intros Hc. rewrite call_async_body. destruct (channel (dPtr w)) as [ch|] eqn:Hch.
  - simpl. intros [= <-]. destruct_consistent Hc. split; simpl; try assumption.
    + intros p wi. rewrite lookup_insert. case_decide; [|by apply Hreplies].
      intros [= <-]. by left.
    + intros p Hp. apply Hfobjs in Hp. lia.
    + intros p Hp. apply Hfwiring in Hp. lia.
    + intros p. rewrite lookup_insert. case_decide; [lia|].
      intros Hp. apply Hfreplies in Hp. lia.
    + rewrite Hch. eauto.
    + intros p. rewrite lookup_insert. case_decide; [lia|].
      intros Hp%Hfholders. lia.
  - simpl. intros [= <-]. apply (consistent_frame w); auto.
Qed.

Lemma consistent_reply_error reply status w :
  consistent w -> consistent (reply_error reply status w).
Proof.
  intros Hc. unfold reply_error.
  destruct (replyWiring w !! reply) as [wi|] eqn:Hwi; [|assumption].
  destruct (connected (errorConnection wi)); [|assumption].
  destruct_consistent Hc. split; simpl; try assumption.
  - intros p wi'. rewrite lookup_insert. case_decide; [|by apply Hreplies].
    intros [= <-]. by right.
  - intros p. rewrite lookup_insert. case_decide; [|by apply Hfreplies].
    subst. intros _. apply Hfreplies. eauto.
Qed.

Lemma consistent_reply_finished reply w :
  consistent w -> consistent (reply_finished reply w).
Proof.
  intros Hc. unfold reply_finished.
  destruct (replyWiring w !! reply) as [wi|] eqn:Hwi; [|assumption].
  destruct (connected (finishedConnection wi)); [|assumption].
  destruct_consistent Hc. split; simpl; try assumption.
  - intros p wi'. rewrite lookup_insert. case_decide; [|by apply Hreplies].
    intros [= <-]. by right.
  - intros p. rewrite lookup_insert. case_decide; [|by apply Hfreplies].
    subst. intros _. apply Hfreplies. eauto.
Qed.

Lemma lookup_new_alter (m : gmap ptr QGrpcStream) n s f it p :
  keeps_key f -> p <> n ->
  exists g, keeps_key g /\
    alter f it (<[n := s]> m) !! p = g <$> m !! p.
Proof.
  intros Hf Hp. rewrite lookup_alter. case_decide as Hit.
  - exists f. split; [done|]. rewrite Hit. by rewrite lookup_insert_ne.
  - exists id. split; [done|]. rewrite lookup_insert_ne by done.
    by destruct (m !! p).
Qed.

Lemma lookup_new (m : gmap ptr QGrpcStream) n s p :
  p <> n -> exists g, keeps_key g /\ <[n := s]> m !! p = g <$> m !! p.
Proof.
  intros Hp. exists id. split; [done|]. rewrite lookup_insert_ne by done.
  by destruct (m !! p).
Qed.

Lemma deref_eq_keys w w' a b :
  (exists g, keeps_key g /\ streamObjs w' !! a = g <$> streamObjs w !! a) ->
  (exists g, keeps_key g /\ streamObjs w' !! b = g <$> streamObjs w !! b) ->
  deref_eq w' a b -> deref_eq w a b.
Proof.
  intros (ga & Hga & Ha) (gb & Hgb & Hb). unfold deref_eq. rewrite Ha, Hb.
  destruct (streamObjs w !! a) as [x|], (streamObjs w !! b) as [y|];
    simpl; try tauto. unfold QGrpcStream_eq.
  destruct (Hga x) as [-> ->], (Hgb y) as [-> ->]. tauto.
Qed.

Lemma addHandler_key h : keeps_key (addHandler h).
Proof. intros x. split; reflexivity. Qed.


(** The wiring of a new stream [n] after the channel's subscribe returned. *)
Lemma lookup_delivered_new (sw : gmap ptr Wiring) n (fin : bool) :
  (if fin then <[n := deadWiring]> (<[n := liveWiring]> sw)
   else <[n := liveWiring]> sw) !! n
  = Some (if fin then deadWiring else liveWiring).
Proof. destruct fin; by rewrite lookup_insert_eq. Qed.

Lemma lookup_delivered_old (sw : gmap ptr Wiring) n p (fin : bool) :
  p <> n ->
  (if fin then <[n := deadWiring]> (<[n := liveWiring]> sw)
   else <[n := liveWiring]> sw) !! p
  = sw !! p.
Proof. intros Hne. destruct fin; by rewrite !lookup_insert_ne by congruence. Qed.

(** [subscribe] on a key that the search does not find: the world it
    returns. *)
Lemma subscribe_new_world cur method arg handler w ch :
  channel (dPtr w) = Some ch ->
  find_active (new_stream (mkStream method arg [handler] ch) w) (nextPtr w) = None ->
  let sigs := ch_subscribe ch method (service (dPtr w)) arg in
  subscribe cur method arg handler w =
    Done (hold (nextPtr w)
            (set_dPtr (set_activeStreams (activeStreams (dPtr w) ++ [nextPtr w])
                         (dPtr w))
               (set_streamWiring
                  (if finishes sigs
                   then <[nextPtr w := deadWiring]>
                          (<[nextPtr w := liveWiring]> (streamWiring w))
                   else <[nextPtr w := liveWiring]> (streamWiring w))
                  (set_timers
                     (timers w ++
                        ((fun _ => mkSingleShot (clock w + 1000) (nextPtr w) method)
                           <$> errors_before_finished sigs))
                     (set_errorSignal (errorSignal w ++ errors_before_finished sigs)
                        (request (thread w) (blocked_callers cur w)
                           (ChSubscribe (nextPtr w) (service (dPtr w)))
                           (set_streamWiring
                              (<[nextPtr w := liveWiring]> (streamWiring w))
                              (new_stream (mkStream method arg [handler] ch) w))))))))
         (Some (nextPtr w)).
Proof.
  intros Hch Hfind. cbv zeta. rewrite subscribe_body, Hch. cbv zeta. rewrite Hfind.
  rewrite deliver_shape; [|simpl; apply lookup_insert_eq|exact Hfind].
  simpl. by rewrite lookup_insert_eq.
Qed.

Lemma consistent_subscribe cur method arg handler w w' :
  consistent w -> after (subscribe cur method arg handler w) = Some w' -> consistent w'.
Proof.
  intros Hc.
  destruct (channel (dPtr w)) as [ch|] eqn:Hch;
    [|rewrite subscribe_body, Hch; simpl; intros [= <-];
      apply (consistent_frame w); auto].
  assert (Hold : forall p, p ∈ activeStreams (dPtr w) -> p <> nextPtr w).
  { intros p Hp%(c_allocated w Hc)%(c_fresh_objs w Hc). lia. }
  destruct (find_active (new_stream (mkStream method arg [handler] ch) w) (nextPtr w))
    as [[i it]|] eqn:Hfind.
  - rewrite subscribe_body, Hch. cbv zeta. rewrite Hfind. simpl. intros [= <-].
    destruct_consistent Hc. split; simpl; try assumption.
    + intros i1 j1 a b Hi Hj He. simpl in *. apply (Hdistinct i1 j1 a b Hi Hj).
      refine (deref_eq_keys w _ a b _ _ He); simpl; apply lookup_new_alter; try apply addHandler_key.
      * apply Hold. eapply list_elem_of_lookup_2; eauto.
      * apply Hold. eapply list_elem_of_lookup_2; eauto.
    + intros p Hp. rewrite lookup_alter. specialize (Hold p Hp).
      apply Hallocated in Hp. case_decide; subst;
        rewrite lookup_insert_ne by done; [by apply fmap_is_Some|done].
    + intros p. rewrite lookup_alter. case_decide; subst.
      * rewrite fmap_is_Some, lookup_insert. case_decide; [lia|].
        intros Hp%Hfobjs. lia.
      * rewrite lookup_insert. case_decide; [lia|]. intros Hp%Hfobjs. lia.
    + intros p Hp%Hfwiring. lia.
    + intros p Hp%Hfreplies. lia.
    + rewrite Hch. eauto.
    + intros p. rewrite lookup_insert. case_decide; [|intros Hp%Hfholders; lia].
      subst. intros _. apply list_find_Some in Hfind as (Hit & _ & _).
      simpl in Hit. apply list_elem_of_lookup_2, Hallocated, Hfobjs in Hit. lia.
  - rewrite (subscribe_new_world cur method arg handler w ch Hch Hfind).
    set (fin := finishes _). set (errs := errors_before_finished _).
    simpl. intros [= <-].
    apply list_find_None in Hfind. simpl in Hfind.
    rewrite Forall_forall in Hfind.
    destruct_consistent Hc. split; simpl; try assumption.
    + intros i1 j1 a b Hi Hj He. simpl in *.
      apply lookup_snoc_Some in Hi as [ [Hi1 Hi] | [-> <-] ];
        apply lookup_snoc_Some in Hj as [ [Hj1 Hj] | [-> <-] ].
      * apply (Hdistinct i1 j1 a b Hi Hj).
        refine (deref_eq_keys w _ a b _ _ He); simpl; apply lookup_new.
        -- apply Hold. eapply list_elem_of_lookup_2; eauto.
        -- apply Hold. eapply list_elem_of_lookup_2; eauto.
      * exfalso. apply (Hfind a); [eapply list_elem_of_lookup_2; eauto|].
        exact He.
      * exfalso. apply (Hfind b); [eapply list_elem_of_lookup_2; eauto|].
        apply deref_eq_sym in He. exact He.
      * reflexivity.
    + intros p [Hp|Hp]%elem_of_app.
      * specialize (Hold p Hp). rewrite lookup_insert_ne by done. auto.
      * apply list_elem_of_singleton in Hp as ->. rewrite lookup_insert_eq. eauto.
    + intros p [Hp|Hp]%elem_of_app.
      * rewrite lookup_delivered_old by (by apply Hold). auto.
      * apply list_elem_of_singleton in Hp as ->.
        rewrite lookup_delivered_new. eauto.
    + intros p wi. destruct (decide (p = nextPtr w)) as [->|Hne].
      * rewrite lookup_delivered_new. intros [= <-]. destruct fin; [by right|].
        left. split; [done|]. apply elem_of_app. right.
        by apply list_elem_of_singleton.
      * rewrite lookup_delivered_old by done.
        intros [ [-> Hp] | -> ]%Hwiring; [|by right]. left. split; [done|].
        apply elem_of_app. by left.
    + intros p. rewrite lookup_insert. case_decide; [lia|].
      intros Hp%Hfobjs. lia.
    + intros p. destruct (decide (p = nextPtr w)) as [->|Hne]; [lia|].
      rewrite lookup_delivered_old by done. intros Hp%Hfwiring. lia.
    + intros p Hp%Hfreplies. lia.
    + rewrite Hch. eauto.
    + intros t [Ht|Ht]%elem_of_app.
      * apply Htimers in Ht. destruct (decide (weakStream t = nextPtr w)) as [->|Hne].
        -- rewrite lookup_delivered_new. eauto.
        -- by rewrite lookup_delivered_old.
      * apply list_elem_of_fmap in Ht as (status & -> & _). simpl.
        rewrite lookup_delivered_new. eauto.
    + intros p. rewrite lookup_insert. case_decide; [lia|].
      intros Hp%Hfholders. lia.
Qed.
Lemma connected_wiring_live w p wi :
  consistent w -> streamWiring w !! p = Some wi ->
  connected (errorConnection wi) = true \/ connected (finishedConnection wi) = true ->
  wi = liveWiring /\ p ∈ activeStreams (dPtr w).
Proof.
  intros Hc Hwi Hconn. destruct (c_wiring w Hc p wi Hwi) as [?| ->]; [done|].
  simpl in Hconn. destruct Hconn; discriminate.
Qed.

(** In a consistent world the search of the finished path finds the
    finished stream itself. *)
Lemma find_active_self w p :
  consistent w -> p ∈ activeStreams (dPtr w) ->
  exists i, activeStreams (dPtr w) !! i = Some p /\ find_active w p = Some (i, p).
Proof.
  intros Hc Hp. pose proof (c_allocated w Hc p Hp) as Hal.
  destruct (list_find_elem_of (fun a => deref_eq w a p) _ p Hp
              (deref_eq_refl w p Hal)) as [[i it] Hfind].
  pose proof Hfind as Hf. apply list_find_Some in Hf as (Hi & He & _).
  apply list_elem_of_lookup_1 in Hp as [j Hj].
  assert (i = j) as -> by exact (c_distinct w Hc i j it p Hi Hj He).
  exists j. unfold find_active. rewrite Hfind. split; [done|]. congruence.
Qed.

Lemma stream_finished_shape w p wi :
  consistent w -> streamWiring w !! p = Some wi ->
  connected (finishedConnection wi) = true ->
  exists i, activeStreams (dPtr w) !! i = Some p /\
    stream_finished p w =
      set_streamWiring (<[p := deadWiring]> (streamWiring w))
        (set_dPtr (set_activeStreams (delete i (activeStreams (dPtr w))) (dPtr w)) w).
Proof.
  intros Hc Hwi Hconn.
  destruct (connected_wiring_live w p wi Hc Hwi (or_intror Hconn)) as [-> Hp].
  destruct (find_active_self w p Hc Hp) as (i & Hi & Hfind).
  exists i. split; [done|]. unfold stream_finished. rewrite Hwi. simpl.
  unfold stream_finished_slot. rewrite Hfind. reflexivity.
Qed.

Lemma NoDup_delete_lookup {A} (l : list A) i x :
  NoDup l -> l !! i = Some x -> x ∉ delete i l.
Proof.
  intros Hnd Hi [j Hj]%list_elem_of_lookup_1.
  rewrite list_lookup_delete in Hj. pose proof (proj1 (NoDup_alt l) Hnd) as Hal.
  case_decide.
  - specialize (Hal i j x Hi Hj). lia.
  - specialize (Hal i (S j) x Hi Hj). lia.
Qed.

Lemma elem_of_delete_other {A} (l : list A) i x y :
  l !! i = Some y -> x <> y -> x ∈ l -> x ∈ delete i l.
Proof.
  intros Hi Hne [j Hj]%list_elem_of_lookup_1.
  assert (j <> i) by (intros ->; congruence).
  destruct (decide (j < i)).
  - apply (list_elem_of_lookup_2 _ j). by rewrite list_lookup_delete_lt.
  - apply (list_elem_of_lookup_2 _ (pred j)). rewrite list_lookup_delete_ge by lia.
    replace (S (pred j)) with j by lia. done.
Qed.

Lemma registry_distinct_delete w w' i :
  streamObjs w' = streamObjs w ->
  activeStreams (dPtr w') = delete i (activeStreams (dPtr w)) ->
  registry_distinct w -> registry_distinct w'.
Proof.
  intros Ho Hr Hd i1 j1 a b. rewrite Hr, !list_lookup_delete.
  intros Hi Hj He. apply (deref_eq_objs w w' a b Ho) in He.
  repeat case_decide.
  - exact (Hd _ _ _ _ Hi Hj He).
  - specialize (Hd _ _ _ _ Hi Hj He). lia.
  - specialize (Hd _ _ _ _ Hi Hj He). lia.
  - specialize (Hd _ _ _ _ Hi Hj He). lia.
Qed.

Lemma consistent_stream_finished stream w :
  consistent w -> consistent (stream_finished stream w).
Proof.
  intros Hc.
  destruct (streamWiring w !! stream) as [wi|] eqn:Hwi;
    [|unfold stream_finished; by rewrite Hwi].
  destruct (connected (finishedConnection wi)) eqn:Hconn;
    [|unfold stream_finished; by rewrite Hwi, Hconn].
  destruct (stream_finished_shape w stream wi Hc Hwi Hconn) as (i & Hi & ->).
  pose proof (registry_NoDup w (c_distinct w Hc) (c_allocated w Hc)) as Hnd.
  pose proof (NoDup_delete_lookup _ i stream Hnd Hi) as Hgone.
  destruct_consistent Hc. split; simpl; try assumption.
  - eapply (registry_distinct_delete w _ i); [reflexivity..|assumption].
  - intros p Hp%list_elem_of_delete_inv. auto.
  - intros p Hp. rewrite lookup_insert. case_decide; [eauto|].
    apply Hwired. by eapply list_elem_of_delete_inv.
  - intros p wi'. rewrite lookup_insert. case_decide.
    + intros [= <-]. by right.
    + intros [ [-> Hp] | -> ]%Hwiring; [|by right]. left. split; [done|].
      by eapply elem_of_delete_other.
  - intros p. rewrite lookup_insert. case_decide; [|by apply Hfwiring].
    subst. intros _. apply Hfwiring. eauto.
  - intros t Ht%Htimers. rewrite lookup_insert. case_decide; [eauto|done].
Qed.

Lemma consistent_exec o w w' : consistent w -> exec o w = Some w' -> consistent w'.
Proof.
  intros Hc. destruct o; simpl.
  - by apply consistent_attachChannel.
  - by apply consistent_call.
  - by apply consistent_call_async.
  - by apply consistent_subscribe.
  - intros [= <-]. by apply consistent_release.
  - intros [= <-]. by apply consistent_reply_error.
  - intros [= <-]. by apply consistent_reply_finished.
  - intros [= <-]. by apply consistent_stream_error.
  - intros [= <-]. by apply consistent_stream_finished.
  - intros [= <-]. by apply consistent_elapse.
  - by apply consistent_timeout.
Qed.

Lemma consistent_run ops : forall w w', consistent w -> run ops w = Some w' -> consistent w'.
Proof.
  induction ops as [|o ops IH]; intros w w' Hc; simpl.
  - by intros [= <-].
  - destruct (exec o w) as [w1|] eqn:Hex; [|discriminate].
    apply IH. by eapply consistent_exec.
Qed.

Lemma reachable_consistent svc ser owner ops w :
  run ops (QAbstractGrpcClient svc ser owner) = Some w -> consistent w.
Proof. apply consistent_run, consistent_init. Qed.

(** ** No channel attached *)

(** C2: with no channel attached, from any calling thread, the blocking call
    returns [Status{Unknown, "No channel(s) attached."}] and leaves the result
    bytes as they were, the asynchronous call and subscribe return a null
    handle, and each of the three emits the facade's error signal once with
    that status; none of them throws. *)
Theorem no_channel_degrades_to_unknown cur method arg ret handler w :
  channel (dPtr w) = None ->
  let status := mkStatus Unknown "No channel(s) attached."%string in
  let w' := set_errorSignal (errorSignal w ++ [status]) w in
  call cur method arg ret w = Done w' (status, ret) /\
  call_async cur method arg w = Done w' None /\
  subscribe cur method arg handler w = Done w' None.
Proof.
  intros Hch. cbv zeta. split_and!.
  - rewrite call_body, Hch. reflexivity.
  - rewrite call_async_body, Hch. reflexivity.
  - rewrite subscribe_body, Hch. reflexivity.
Qed.

Lemma no_channel_degrades_to_unknown_witness :
  channel (dPtr freshClient) = None /\
  call 5 "Ping"%string [] [] freshClient
  = Done (set_errorSignal [mkStatus Unknown "No channel(s) attached."%string] freshClient)
         (mkStatus Unknown "No channel(s) attached."%string, []).
Proof.
  split; [reflexivity|].
  apply (no_channel_degrades_to_unknown 5 "Ping"%string [] [] 0 freshClient).
  reflexivity.
Defined.

(** ** Blocking call on the owner thread *)

(** C8: on the owner thread with a channel attached, the blocking call hands
    the request to the channel's call primitive and returns its status and
    result bytes; the error signal is emitted with that status exactly when
    its code is not [Ok]. *)
Theorem blocking_call_delegates_and_notifies method arg ret w ch :
  channel (dPtr w) = Some ch ->
  let svc := service (dPtr w) in
  let st := (ch_call ch method svc arg ret).1 in
  let r := (ch_call ch method svc arg ret).2 in
  exists w', call (thread w) method arg ret w = Done w' (st, r) /\
    channelLog w' = channelLog w ++ [ChCall method svc arg] /\
    (code st <> Ok -> errorSignal w' = errorSignal w ++ [st]) /\
    (code st = Ok -> errorSignal w' = errorSignal w).
Proof.
  intros Hch. cbv zeta. rewrite call_body, Hch. cbv zeta.
  destruct (ch_call ch method (service (dPtr w)) arg ret) as [st r]. simpl.
  unfold status_ne. case_bool_decide as Hok; simpl;
    eexists; (split; [reflexivity|]); simpl; split_and!; try done.
Qed.

Lemma blocking_call_delegates_and_notifies_witness :
  exists w0 w',
    run [OpAttachChannel 1 (Some (failingChannel 1))] freshClient = Some w0 /\
    call 1 "Ping"%string [] [] w0
    = Done w' (mkStatus (ChannelCode 14) "unavailable"%string, []) /\
    errorSignal w' = [mkStatus (ChannelCode 14) "unavailable"%string].
Proof.
  eexists. 
  destruct (blocking_call_delegates_and_notifies "Ping"%string [] []
              (set_dPtr (mkPrivate (Some (failingChannel 1)) "svc"%string 7 [])
                 freshClient)
              (failingChannel 1) eq_refl) as (w' & Hcall & _ & Herr & _).
  exists w'. split; [reflexivity|]. split; [exact Hcall|].
  apply Herr. discriminate.
Defined.

(** C10: the blocking call, on every path, leaves the facade's private
    fields as they were: channel, serializer, service name and registry. *)
Theorem blocking_call_frame cur method arg ret w :
  exists w' r, call cur method arg ret w = Done w' r /\
    channel (dPtr w') = channel (dPtr w) /\
    serializer (dPtr w') = serializer (dPtr w) /\
    service (dPtr w') = service (dPtr w) /\
    activeStreams (dPtr w') = activeStreams (dPtr w) /\
    streamObjs w' = streamObjs w.
Proof.
  destruct (call_world cur method arg ret w)
    as (w' & r & Hcall & Hd & _ & Ho & _).
  exists w', r. rewrite Hd. split_and!; done.
Qed.

(** ** The relay from a foreign thread *)









(** What one [subscribe] call can change. *)
Lemma subscribe_world cur method arg handler w w' r :
  subscribe cur method arg handler w = Done w' r ->
  thread w' = thread w /\
  channel (dPtr w') = channel (dPtr w) /\
  service (dPtr w') = service (dPtr w) /\
  serializer (dPtr w') = serializer (dPtr w) /\
  replyWiring w' = replyWiring w /\
  nextPtr w <= nextPtr w' /\
  (activeStreams (dPtr w') = activeStreams (dPtr w) \/
   activeStreams (dPtr w') = activeStreams (dPtr w) ++ [nextPtr w]) /\
  (forall p, p <> nextPtr w -> streamWiring w' !! p = streamWiring w !! p).
Proof.
  destruct (channel (dPtr w)) as [ch|] eqn:Hch.
  - destruct (find_active (new_stream (mkStream method arg [handler] ch) w) (nextPtr w))
      as [[i it]|] eqn:Hfind.
    + rewrite subscribe_body, Hch. cbv zeta. rewrite Hfind. intros [= <- <-].
      simpl. split_and!; auto.
    + rewrite (subscribe_new_world cur method arg handler w ch Hch Hfind).
      intros [= <- <-]. simpl. split_and!; auto.
      intros p Hp. by apply lookup_delivered_old.
  - rewrite subscribe_body, Hch. intros [= <- <-]. simpl. split_and!; auto.
Qed.

(** ** attachChannel *)

(** C6: the code breaks the claim.  The guard of [attachChannel] compares
    the calling thread with the thread of the channel, not with the thread
    of the facade.  A facade of thread 1 accepts a channel living in thread 2
    when called from thread 2 (no exception, channel and serializer stored),
    refuses the same channel when called from its own thread, and from then
    on drives that channel, which lives in thread 2, from thread 1. *)
Theorem attachChannel_foreign_thread_accepted :
  let w1 := set_dPtr (mkPrivate (Some (echoChannel 2)) "svc"%string 7 []) freshClient in
  2 <> thread freshClient /\
  attachChannel 2 (Some (echoChannel 2)) freshClient = Done w1 tt /\
  ~ (exists what w', attachChannel 2 (Some (echoChannel 2)) freshClient = Thrown what w') /\
  attachChannel (thread freshClient) (Some (echoChannel 2)) freshClient
  = Thrown "Call from another thread"%string freshClient /\
  exists w2 res, call 1 "Ping"%string [] [] w1 = Done w2 res /\
    channelLog w2 = [ChCall "Ping"%string "svc"%string []] /\
    channelContext w2 = [(1, [])] /\
    ch_thread (echoChannel 2) = 2.
Proof.
  cbv zeta. split_and!.
  - simpl. lia.
  - reflexivity.
  - intros (what & w' & H). vm_compute in H. discriminate.
  - reflexivity.
  - eexists _, _. split; [vm_compute; reflexivity|]. split_and!; reflexivity.
Qed.

(** ** The registry of active streams *)

(** C3: in every world reached from a freshly constructed facade by any
    sequence of operations and events, no two entries of [activeStreams] are
    equivalent streams. *)
Theorem registry_never_holds_equivalent_streams svc ser owner ops w :
  run ops (QAbstractGrpcClient svc ser owner) = Some w ->
  registry_distinct w /\ NoDup (activeStreams (dPtr w)).
Proof.
  intros Hc%reachable_consistent. split; [apply Hc|].
  apply registry_NoDup; apply Hc.
Qed.

Lemma registry_never_holds_equivalent_streams_witness :
  activeStreams (dPtr feedWorld) = [0; 1] /\
  registry_distinct feedWorld.
Proof.
  split; [reflexivity|].
  assert (Hr : run feedOps freshClient = Some feedWorld) by (vm_compute; reflexivity).
  exact (proj1 (registry_never_holds_equivalent_streams "svc"%string 0 1
                  feedOps feedWorld Hr)).
Defined.

Lemma registry_refs_not_in (l : list ptr) p : p ∉ l -> registry_refs l p = 0.
Proof.
  intros Hp. unfold registry_refs.
  induction l as [|x l IH]; [reflexivity|].
  apply not_elem_of_cons in Hp as [Hne Hp].
  rewrite filter_cons_False by congruence. auto.
Qed.

Lemma elem_of_delete_lookup {A} (l : list A) i x :
  x ∈ delete i l -> exists j, j <> i /\ l !! j = Some x.
Proof.
  intros [j Hj]%list_elem_of_lookup_1. rewrite list_lookup_delete in Hj.
  case_decide; [exists j|exists (S j)]; split; auto; lia.
Qed.

(** Once both connections of a stream are gone, no operation brings them
    back. *)
Lemma exec_keeps_dead_stream o w w' p :
  consistent w -> streamWiring w !! p = Some deadWiring ->
  exec o w = Some w' -> streamWiring w' !! p = Some deadWiring.
Proof.
  intros Hc Hp. destruct o; simpl.
  - unfold attachChannel. destruct ch as [c|]; [|discriminate].
    destruct (negb _); simpl; by intros [= <-].
  - destruct (call_world cur method arg ret w)
      as (w1 & res & -> & _ & _ & _ & Hsw & _).
    simpl. intros [= <-]. by rewrite Hsw.
  - rewrite call_async_body. destruct (channel (dPtr w)); simpl; by intros [= <-].
  - destruct (subscribe_returns cur method arg handler w) as (w1 & r & Hsub).
    rewrite Hsub. simpl. intros [= <-].
    destruct (subscribe_world _ _ _ _ _ _ _ Hsub) as (_ & _ & _ & _ & _ & _ & _ & Hsw).
    rewrite Hsw; [done|].
    assert (p < nextPtr w) by (apply (c_fresh_wiring w Hc); eauto). lia.
  - intros [= <-]. unfold release. by destruct (holders w !! p0) as [[|n]|].
  - intros [= <-]. unfold reply_error.
    destruct (replyWiring w !! reply) as [wi|]; [|done].
    by destruct (connected (errorConnection wi)).
  - intros [= <-]. unfold reply_finished.
    destruct (replyWiring w !! reply) as [wi|]; [|done].
    by destruct (connected (finishedConnection wi)).
  - intros [= <-]. unfold stream_error.
    destruct (streamWiring w !! stream) as [wi|]; [|done].
    by destruct (connected (errorConnection wi)).
  - intros [= <-]. unfold stream_finished.
    destruct (streamWiring w !! stream) as [wi|] eqn:Hwi; [|done].
    destruct (connected (finishedConnection wi)) eqn:Hconn; [|done].
    unfold stream_finished_slot.
    assert (stream <> p) as Hne.
    { intros ->. rewrite Hwi in Hp. injection Hp as ->. discriminate. }
    destruct (find_active w stream) as [[? ?]|]; simpl; by rewrite lookup_insert_ne.
  - by intros [= <-].
  - unfold timeout. destruct (timers w !! i) as [t|]; [|simpl; by intros [= <-]].
    destruct (deadline t <=? clock w); [|simpl; by intros [= <-]].
    unfold reconnect_slot. destruct (lock _ _); simpl.
    + destruct (channel (dPtr w)); simpl; [by intros [= <-]|discriminate].
    + by intros [= <-].
Qed.

Lemma run_keeps_dead_stream ops p : forall w w',
  consistent w -> streamWiring w !! p = Some deadWiring ->
  run ops w = Some w' -> streamWiring w' !! p = Some deadWiring.
Proof.
  induction ops as [|o ops IH]; intros w w' Hc Hp; simpl.
  - by intros [= <-].
  - destruct (exec o w) as [w1|] eqn:Hex; [|discriminate].
    apply IH; [by eapply consistent_exec|by eapply exec_keeps_dead_stream].
Qed.

(** The allocator only moves forward, and only a new stream enters the
    registry. *)
Lemma exec_registry o w w' :
  exec o w = Some w' ->
  nextPtr w <= nextPtr w' /\
  forall p, p ∈ activeStreams (dPtr w') ->
    p ∈ activeStreams (dPtr w) \/ p = nextPtr w.
Proof.
  destruct o; simpl.
  - unfold attachChannel. destruct ch as [c|]; [|discriminate].
    destruct (negb _); simpl; intros [= <-]; simpl; auto.
  - destruct (call_world cur method arg ret w)
      as (w1 & res & -> & Hd & _ & _ & _ & _ & _ & _ & _ & Hn).
    simpl. intros [= <-]. rewrite Hd, Hn. auto.
  - rewrite call_async_body. destruct (channel (dPtr w)); simpl; intros [= <-];
      simpl; auto.
  - destruct (subscribe_returns cur method arg handler w) as (w1 & r & Hsub).
    rewrite Hsub. simpl. intros [= <-].
    destruct (subscribe_world _ _ _ _ _ _ _ Hsub)
      as (_ & _ & _ & _ & _ & Hn & [Hreg|Hreg] & _); rewrite Hreg;
      (split; [exact Hn|]); [auto|].
    intros p [Hp|Hp]%elem_of_app; [auto|].
    apply list_elem_of_singleton in Hp. auto.
  - intros [= <-]. unfold release. destruct (holders w !! p) as [[|n]|]; auto.
  - intros [= <-]. unfold reply_error.
    destruct (replyWiring w !! reply) as [wi|]; [|auto].
    destruct (connected (errorConnection wi)); simpl; auto.
  - intros [= <-]. unfold reply_finished.
    destruct (replyWiring w !! reply) as [wi|]; [|auto].
    destruct (connected (finishedConnection wi)); simpl; auto.
  - intros [= <-]. unfold stream_error.
    destruct (streamWiring w !! stream) as [wi|]; [|auto].
    destruct (connected (errorConnection wi)); simpl; auto.
  - intros [= <-]. unfold stream_finished.
    destruct (streamWiring w !! stream) as [wi|]; [|auto].
    destruct (connected (finishedConnection wi)); [|auto].
    unfold stream_finished_slot.
    destruct (find_active w stream) as [[? ?]|]; simpl; [|auto].
    split; [done|]. intros q Hq%list_elem_of_delete_inv. auto.
  - intros [= <-]. simpl. auto.
  - unfold timeout. destruct (timers w !! i) as [t|]; [|simpl; intros [= <-]; auto].
    destruct (deadline t <=? clock w); [|simpl; intros [= <-]; auto].
    unfold reconnect_slot. destruct (lock _ _); simpl.
    + destruct (channel (dPtr w)); simpl; [intros [= <-]; simpl; auto|discriminate].
    + intros [= <-]. simpl. auto.
Qed.

(** An allocated stream outside the registry never enters it. *)
Lemma run_keeps_unregistered ops p : forall w w',
  p < nextPtr w -> p ∉ activeStreams (dPtr w) ->
  run ops w = Some w' -> p ∉ activeStreams (dPtr w').
Proof.
  induction ops as [|o ops IH]; intros w w' Hlt Hp; simpl.
  - by intros [= <-].
  - destruct (exec o w) as [w1|] eqn:Hex; [|discriminate].
    destruct (exec_registry o w w1 Hex) as [Hn Hreg].
    apply IH; [lia|]. intros [Hin| ->]%Hreg; [contradiction|lia].
Qed.

(** A registered stream whose connections are gone is never erased: only
    the finished path erases, and it erases the stream that finished. *)
Lemma exec_keeps_registered_dead o w w' p :
  consistent w ->
  p ∈ activeStreams (dPtr w) -> streamWiring w !! p = Some deadWiring ->
  exec o w = Some w' -> p ∈ activeStreams (dPtr w').
Proof.
  intros Hc Hin Hp. destruct o; simpl.
  - unfold attachChannel. destruct ch as [c|]; [|discriminate].
    destruct (negb _); simpl; by intros [= <-].
  - destruct (call_world cur method arg ret w) as (w1 & res & -> & Hd & _).
    simpl. intros [= <-]. by rewrite Hd.
  - rewrite call_async_body. destruct (channel (dPtr w)); simpl; by intros [= <-].
  - destruct (subscribe_returns cur method arg handler w) as (w1 & r & Hsub).
    rewrite Hsub. simpl. intros [= <-].
    destruct (subscribe_world _ _ _ _ _ _ _ Hsub)
      as (_ & _ & _ & _ & _ & _ & [Hreg|Hreg] & _); rewrite Hreg; [done|].
    apply elem_of_app. by left.
  - intros [= <-]. unfold release. by destruct (holders w !! p0) as [[|n]|].
  - intros [= <-]. unfold reply_error.
    destruct (replyWiring w !! reply) as [wi|]; [|done].
    by destruct (connected (errorConnection wi)).
  - intros [= <-]. unfold reply_finished.
    destruct (replyWiring w !! reply) as [wi|]; [|done].
    by destruct (connected (finishedConnection wi)).
  - intros [= <-]. unfold stream_error.
    destruct (streamWiring w !! stream) as [wi|]; [|done].
    by destruct (connected (errorConnection wi)).
  - intros [= <-].
    destruct (streamWiring w !! stream) as [wi|] eqn:Hwi;
      [|unfold stream_finished; by rewrite Hwi].
    destruct (connected (finishedConnection wi)) eqn:Hconn;
      [|unfold stream_finished; by rewrite Hwi, Hconn].
    destruct (stream_finished_shape w stream wi Hc Hwi Hconn) as (i & Hi & ->).
    simpl. apply (elem_of_delete_other _ i p stream Hi); [|exact Hin].
    intros ->. rewrite Hwi in Hp. injection Hp as ->. discriminate.
  - by intros [= <-].
  - unfold timeout. destruct (timers w !! i) as [t|]; [|simpl; by intros [= <-]].
    destruct (deadline t <=? clock w); [|simpl; by intros [= <-]].
    unfold reconnect_slot. destruct (lock _ _); simpl.
    + destruct (channel (dPtr w)); simpl; [by intros [= <-]|discriminate].
    + by intros [= <-].
Qed.

Lemma run_keeps_registered_dead ops p : forall w w',
  consistent w ->
  p ∈ activeStreams (dPtr w) -> streamWiring w !! p = Some deadWiring ->
  run ops w = Some w' ->
  p ∈ activeStreams (dPtr w') /\ streamWiring w' !! p = Some deadWiring.
Proof.
  induction ops as [|o ops IH]; intros w w' Hc Hin Hp; simpl.
  - by intros [= <-].
  - destruct (exec o w) as [w1|] eqn:Hex; [|discriminate].
    apply IH; [by eapply consistent_exec|by eapply exec_keeps_registered_dead
              |by eapply exec_keeps_dead_stream].
Qed.

(** ** The two paths of subscribe *)

(** The search of [subscribe] finds the registered stream with the
    candidate's method and argument. *)
Lemma find_active_existing w i q s method arg hs ch :
  consistent w ->
  activeStreams (dPtr w) !! i = Some q ->
  streamObjs w !! q = Some s ->
  s_method s = method -> s_arg s = arg ->
  find_active (new_stream (mkStream method arg hs ch) w) (nextPtr w) = Some (i, q).
Proof.
  intros Hc Hi Hq Hm Ha.
  set (w1 := new_stream (mkStream method arg hs ch) w).
  assert (Hfresh : forall p, p ∈ activeStreams (dPtr w) -> p <> nextPtr w).
  { intros p Hp%(c_allocated w Hc)%(c_fresh_objs w Hc). lia. }
  assert (Hcand : streamObjs w1 !! nextPtr w = Some (mkStream method arg hs ch))
    by apply lookup_insert_eq.
  assert (Hin : q ∈ activeStreams (dPtr w)) by (eapply list_elem_of_lookup_2; eauto).
  assert (Heq : deref_eq w1 q (nextPtr w)).
  { unfold deref_eq. rewrite Hcand. subst w1. simpl.
    rewrite lookup_insert_ne by (apply not_eq_sym, Hfresh, Hin).
    rewrite Hq. split; simpl; congruence. }
  destruct (list_find_elem_of (fun a => deref_eq w1 a (nextPtr w)) _ q Hin Heq)
    as [[i' it] Hfind].
  unfold find_active. change (activeStreams (dPtr w1)) with (activeStreams (dPtr w)).
  rewrite Hfind. pose proof Hfind as (Hi' & He' & _)%list_find_Some.
  assert (deref_eq w it q) as Hitq.
  { assert (it <> nextPtr w) as Hne
      by (apply Hfresh; eapply list_elem_of_lookup_2; eauto).
    revert He'. unfold deref_eq. rewrite Hcand. subst w1. simpl.
    rewrite lookup_insert_ne by (apply not_eq_sym, Hne). rewrite Hq.
    destruct (streamObjs w !! it) as [x|]; [|done].
    unfold QGrpcStream_eq. simpl. intros [? ?]. split; congruence. }
  assert (i' = i) as -> by exact (c_distinct w Hc i' i it q Hi' Hi Hitq).
  congruence.
Qed.

Lemma find_active_none w method arg hs ch :
  consistent w -> unregistered w method arg ->
  find_active (new_stream (mkStream method arg hs ch) w) (nextPtr w) = None.
Proof.
  intros Hc Hun. unfold find_active. apply list_find_None, Forall_forall.
  intros q Hq He. simpl in Hq.
  assert (q <> nextPtr w) as Hne.
  { apply (c_allocated w Hc), (c_fresh_objs w Hc) in Hq. lia. }
  destruct (c_allocated w Hc q Hq) as [s Hs].
  revert He. unfold deref_eq. simpl.
  rewrite lookup_insert_eq, lookup_insert_ne by (apply not_eq_sym, Hne).
  rewrite Hs. intros [Hm Ha]. exact (Hun q s Hq Hs (conj Hm Ha)).
Qed.

Lemma subscribe_new_shape cur method arg handler w ch :
  consistent w -> channel (dPtr w) = Some ch -> unregistered w method arg ->
  let sigs := ch_subscribe ch method (service (dPtr w)) arg in
  subscribe cur method arg handler w =
    Done (hold (nextPtr w)
            (set_dPtr (set_activeStreams (activeStreams (dPtr w) ++ [nextPtr w])
                         (dPtr w))
               (set_streamWiring
                  (if finishes sigs
                   then <[nextPtr w := deadWiring]>
                          (<[nextPtr w := liveWiring]> (streamWiring w))
                   else <[nextPtr w := liveWiring]> (streamWiring w))
                  (set_timers
                     (timers w ++
                        ((fun _ => mkSingleShot (clock w + 1000) (nextPtr w) method)
                           <$> errors_before_finished sigs))
                     (set_errorSignal (errorSignal w ++ errors_before_finished sigs)
                        (request (thread w) (blocked_callers cur w)
                           (ChSubscribe (nextPtr w) (service (dPtr w)))
                           (set_streamWiring
                              (<[nextPtr w := liveWiring]> (streamWiring w))
                              (new_stream (mkStream method arg [handler] ch) w))))))))
         (Some (nextPtr w)).
Proof.
  intros Hc Hch Hun. apply subscribe_new_world; [exact Hch|].
  by apply find_active_none.
Qed.

Lemma subscribe_found_shape cur method arg handler w ch i q s :
  consistent w -> channel (dPtr w) = Some ch ->
  activeStreams (dPtr w) !! i = Some q -> streamObjs w !! q = Some s ->
  s_method s = method -> s_arg s = arg ->
  subscribe cur method arg handler w =
    Done (hold q
            (set_streamObjs
               (alter (addHandler handler) q
                  (<[nextPtr w := mkStream method arg [handler] ch]> (streamObjs w)))
               (new_stream (mkStream method arg [handler] ch) w)))
         (Some q).
Proof.
  intros Hc Hch Hi Hq Hm Ha. rewrite subscribe_body, Hch. cbv zeta.
  by rewrite (find_active_existing w i q s method arg [handler] ch Hc Hi Hq Hm Ha).
Qed.

Lemma registry_refs_NoDup (l : list ptr) p :
  NoDup l -> p ∈ l -> registry_refs l p = 1.
Proof.
  unfold registry_refs. induction 1 as [|x l Hx Hnd IH]; intros Hp.
  - by apply elem_of_nil in Hp.
  - apply elem_of_cons in Hp as [->|Hp].
    + rewrite filter_cons_True by done. simpl.
      fold (registry_refs l x). by rewrite registry_refs_not_in.
    + rewrite filter_cons_False; [auto|]. intros ->. contradiction.
Qed.

(** A registered stream is owned by the registry, on top of the handles its
    callers hold and of the copies of the connected lambdas. *)
Lemma registered_use_count w p :
  consistent w -> p ∈ activeStreams (dPtr w) ->
  use_count w p
  = default 0 (holders w !! p) + 1 + wiring_refs (streamWiring w !! p).
Proof.
  intros Hc Hp. unfold use_count.
  rewrite registry_refs_NoDup; [done|apply registry_NoDup; apply Hc|exact Hp].
Qed.

(** ** The finished path *)

(** C9: the code breaks the claim when the channel reports the end of the
    stream before its [subscribe] returns.  Line 183 runs with both lambdas
    connected and the stream not yet registered: the finished path finds
    nothing to erase and disconnects both paths, and line 184 then registers
    the finished stream.  It has no connection left that could erase it, so
    it stays in the registry whatever happens, and [subscribe] hands it out
    again for its method and argument without asking the channel. *)
Theorem finished_inside_subscribe_stays_registered
    svc ser owner ops w ch cur method arg handler :
  run ops (QAbstractGrpcClient svc ser owner) = Some w ->
  channel (dPtr w) = Some ch ->
  unregistered w method arg ->
  finishes (ch_subscribe ch method (service (dPtr w)) arg) = true ->
  exists w', subscribe cur method arg handler w = Done w' (Some (nextPtr w)) /\
    nextPtr w ∈ activeStreams (dPtr w') /\
    streamWiring w' !! nextPtr w = Some deadWiring /\
    use_count w' (nextPtr w) = 2 /\
    stream_finished (nextPtr w) w' = w' /\
    (forall later w3, run later w' = Some w3 ->
       nextPtr w ∈ activeStreams (dPtr w3) /\
       streamWiring w3 !! nextPtr w = Some deadWiring) /\
    (forall cur2 h2, exists w2,
       subscribe cur2 method arg h2 w' = Done w2 (Some (nextPtr w)) /\
       channelLog w2 = channelLog w').
Proof.
  intros Hc%reachable_consistent Hch Hun Hfin.
  pose proof (subscribe_new_shape cur method arg handler w ch Hc Hch Hun) as Hsub.
  cbv zeta in Hsub. rewrite Hfin in Hsub.
  set (w' := hold (nextPtr w) _) in Hsub.
  assert (Hc' : consistent w').
  { apply (consistent_subscribe cur method arg handler w); [exact Hc|].
    by rewrite Hsub. }
  assert (Hin : nextPtr w ∈ activeStreams (dPtr w')).
  { subst w'. simpl. apply elem_of_app. right. by apply list_elem_of_singleton. }
  assert (Hdead : streamWiring w' !! nextPtr w = Some deadWiring).
  { subst w'. simpl. by rewrite lookup_insert_eq. }
  assert (Hnh : holders w !! nextPtr w = None).
  { apply eq_None_not_Some. intros Hs%(c_fresh_holders w Hc). lia. }
  exists w'. split; [exact Hsub|]. split_and!.
  - exact Hin.
  - exact Hdead.
  - rewrite (registered_use_count w' _ Hc' Hin), Hdead.
    subst w'. simpl. by rewrite lookup_insert_eq, Hnh.
  - unfold stream_finished. by rewrite Hdead.
  - intros later w3 Hlater.
    by apply (run_keeps_registered_dead later (nextPtr w) w' w3).
  - intros cur2 h2.
    assert (Hi : activeStreams (dPtr w') !! length (activeStreams (dPtr w))
                 = Some (nextPtr w)).
    { subst w'. simpl. by rewrite lookup_app_r, Nat.sub_diag by lia. }
    assert (Hs : streamObjs w' !! nextPtr w = Some (mkStream method arg [handler] ch)).
    { subst w'. simpl. by rewrite lookup_insert_eq. }
    assert (Hch' : channel (dPtr w') = Some ch) by (subst w'; exact Hch).
    eexists. split.
    + exact (subscribe_found_shape cur2 method arg h2 w' ch _ _ _ Hc' Hch' Hi Hs
               eq_refl eq_refl).
    + reflexivity.
Qed.

Lemma feed_unregistered_in_attached :
  unregistered
    (set_dPtr (mkPrivate (Some (closingChannel 1)) "svc"%string 7 []) freshClient)
    "Feed"%string [].
Proof. intros q s Hq. simpl in Hq. by apply elem_of_nil in Hq. Qed.

(** The facade of thread 1 with the closing channel: after one [subscribe]
    the finished stream 0 is registered with both connections gone. *)
Lemma finished_inside_subscribe_stays_registered_witness :
  subscribe 1 "Feed"%string [] 3
    (set_dPtr (mkPrivate (Some (closingChannel 1)) "svc"%string 7 []) freshClient)
  = Done closedWorld (Some 0) /\
  activeStreams (dPtr closedWorld) = [0] /\
  streamWiring closedWorld !! 0 = Some deadWiring /\
  use_count closedWorld 0 = 2.
Proof.
  assert (Hr : run [OpAttachChannel 1 (Some (closingChannel 1))] freshClient
               = Some (set_dPtr (mkPrivate (Some (closingChannel 1)) "svc"%string 7 [])
                         freshClient)) by reflexivity.
  destruct (finished_inside_subscribe_stays_registered "svc"%string 0 1 _ _
              (closingChannel 1) 1 "Feed"%string [] 3 Hr eq_refl
              feed_unregistered_in_attached eq_refl)
    as (w' & Hsub & _ & Hdead & Hcount & _).
  assert (w' = closedWorld) as ->.
  { pose proof Hsub as Hs. vm_compute in Hs. by injection Hs. }
  split; [exact Hsub|]. split; [reflexivity|]. split; [exact Hdead|exact Hcount].
Defined.

(** X14: when the finished signal of a stream arrives between operations,
    that is after the [subscribe] that created the stream has returned, and
    its finished path is still connected, the stream is in the registry and
    the finished path erases that very stream, leaving no stream equivalent
    to it; both connections are gone, the lambdas hold no copy of the shared
    pointer (only the callers' handles still count), and later error or
    finished signals of that stream run nothing.  Whatever happens
    afterwards, the stream stays unwired and never returns to the registry. *)
Theorem finished_path_untracks_stream svc ser owner ops w p wi :
  run ops (QAbstractGrpcClient svc ser owner) = Some w ->
  streamWiring w !! p = Some wi ->
  connected (finishedConnection wi) = true ->
  let w' := stream_finished p w in
  (exists i, activeStreams (dPtr w) !! i = Some p /\
     activeStreams (dPtr w') = delete i (activeStreams (dPtr w))) /\
  (p ∉ activeStreams (dPtr w')) /\
  (forall q, q ∈ activeStreams (dPtr w') -> ~ deref_eq w' q p) /\
  streamWiring w' !! p = Some deadWiring /\
  use_count w' p = default 0 (holders w !! p) /\
  stream_finished p w' = w' /\
  (forall status, stream_error p status w' = w') /\
  (forall later w3, run later w' = Some w3 ->
     streamWiring w3 !! p = Some deadWiring /\ p ∉ activeStreams (dPtr w3)).
Proof.
  intros Hc%reachable_consistent Hwi Hconn. cbv zeta.
  pose proof (consistent_stream_finished p w Hc) as Hc'.
  destruct (stream_finished_shape w p wi Hc Hwi Hconn) as (i & Hi & Hshape).
  rewrite Hshape in *. clear Hshape.
  pose proof (registry_NoDup w (c_distinct w Hc) (c_allocated w Hc)) as Hnd.
  pose proof (NoDup_delete_lookup _ i p Hnd Hi) as Hgone.
  simpl. split_and!.
  - exists i. done.
  - exact Hgone.
  - intros q (j & Hne & Hj)%elem_of_delete_lookup He.
    apply Hne. refine (c_distinct w Hc j i q p Hj Hi _).
    unfold deref_eq in *. exact He.
  - by rewrite lookup_insert_eq.
  - unfold use_count. simpl. rewrite lookup_insert_eq.
    rewrite registry_refs_not_in by exact Hgone. cbn. lia.
  - unfold stream_finished. simpl. by rewrite lookup_insert_eq.
  - intros status. unfold stream_error. simpl. by rewrite lookup_insert_eq.
  - intros later w3 Hlater.
    assert (Hdead : streamWiring w3 !! p = Some deadWiring).
    { eapply run_keeps_dead_stream; [exact Hc'| |exact Hlater].
      simpl. by rewrite lookup_insert_eq. }
    split; [exact Hdead|].
    refine (run_keeps_unregistered later p _ w3 _ _ Hlater); simpl.
    + apply (c_fresh_wiring w Hc). eauto.
    + exact Hgone.
Qed.

Lemma finished_path_untracks_stream_witness :
  activeStreams (dPtr feedWorld) = [0; 1] /\
  activeStreams (dPtr (stream_finished 0 feedWorld)) = [1] /\
  0 ∉ activeStreams (dPtr (stream_finished 0 feedWorld)).
Proof.
  split; [reflexivity|]. split; [vm_compute; reflexivity|].
  assert (Hr : run feedOps freshClient = Some feedWorld) by (vm_compute; reflexivity).
  refine (proj1 (proj2 (finished_path_untracks_stream "svc"%string 0 1
    feedOps feedWorld 0 liveWiring Hr _ _))).
  - vm_compute. reflexivity.
  - reflexivity.
Defined.

(** ** Deduplication in subscribe *)

(** C1: on the owner thread with a channel attached, when the registry holds
    a stream with the requested method and argument, [subscribe] appends the
    handler to that stream's handler list and returns that stream; the caller
    receives one more copy of its shared pointer.  The candidate built for
    the search is dropped: the channel receives no request, no connection is
    made, the registry is unchanged and nothing owns the candidate. *)
Theorem subscribe_reuses_registered_stream
    svc ser owner ops w ch method arg handler i q s :
  run ops (QAbstractGrpcClient svc ser owner) = Some w ->
  channel (dPtr w) = Some ch ->
  activeStreams (dPtr w) !! i = Some q ->
  streamObjs w !! q = Some s ->
  s_method s = method -> s_arg s = arg ->
  exists w', subscribe (thread w) method arg handler w = Done w' (Some q) /\
    streamObjs w' !! q = Some (addHandler handler s) /\
    holders w' !! q = Some (S (default 0 (holders w !! q))) /\
    activeStreams (dPtr w') = activeStreams (dPtr w) /\
    channelLog w' = channelLog w /\
    streamWiring w' = streamWiring w /\
    streamWiring w' !! nextPtr w = None /\
    use_count w' (nextPtr w) = 0 /\
    errorSignal w' = errorSignal w.
Proof.
  intros Hc%reachable_consistent Hch Hi Hq Hm Ha.
  rewrite subscribe_body, Hch. cbv zeta.
  rewrite (find_active_existing w i q s method arg [handler] ch Hc Hi Hq Hm Ha).
  assert (Hin : q ∈ activeStreams (dPtr w)) by (eapply list_elem_of_lookup_2; eauto).
  assert (Hne : q <> nextPtr w).
  { apply (c_allocated w Hc), (c_fresh_objs w Hc) in Hin. lia. }
  assert (Hnw : streamWiring w !! nextPtr w = None).
  { apply eq_None_not_Some. intros Hs%(c_fresh_wiring w Hc). lia. }
  assert (Hnh : holders w !! nextPtr w = None).
  { apply eq_None_not_Some. intros Hs%(c_fresh_holders w Hc). lia. }
  assert (Hnr : nextPtr w ∉ activeStreams (dPtr w)).
  { intros Hs%(c_allocated w Hc)%(c_fresh_objs w Hc). lia. }
  eexists. split; [reflexivity|]. simpl. split_and!; try done.
  - rewrite lookup_alter_eq, lookup_insert_ne by (apply not_eq_sym, Hne).
    by rewrite Hq.
  - by rewrite lookup_insert_eq.
  - unfold use_count. simpl. rewrite lookup_insert_ne by exact Hne.
    rewrite Hnh, Hnw, registry_refs_not_in by exact Hnr. reflexivity.
Qed.

Lemma subscribe_reuses_registered_stream_witness :
  exists w', subscribe 1 "Feed"%string [] 9 feedWorld = Done w' (Some 0) /\
    (s_handlers <$> streamObjs w' !! 0) = Some [3; 9] /\
    channelLog w' = channelLog feedWorld.
Proof.
  assert (Hr : run feedOps freshClient = Some feedWorld) by (vm_compute; reflexivity).
  destruct (subscribe_reuses_registered_stream "svc"%string 0 1 feedOps feedWorld
              (echoChannel 1) "Feed"%string [] 9 0 0
              (mkStream "Feed"%string [] [3] (echoChannel 1))
              Hr eq_refl eq_refl eq_refl eq_refl eq_refl)
    as (w' & Hsub & Hobj & _ & _ & Hlog & _).
  exists w'. split; [exact Hsub|]. split; [|exact Hlog].
  exact (f_equal (fmap s_handlers) Hobj).
Defined.

(** ** Completion of an asynchronous reply *)

Lemma reply_events_dead r w :
  replyWiring w !! r = Some deadWiring ->
  reply_finished r w = w /\ forall status, reply_error r status w = w.
Proof.
  intros Hr. unfold reply_finished, reply_error. rewrite Hr. simpl. done.
Qed.

(** Once both connections of a reply are gone, no operation brings them
    back. *)
Lemma exec_keeps_dead_reply o w w' r :
  consistent w -> replyWiring w !! r = Some deadWiring ->
  exec o w = Some w' -> replyWiring w' !! r = Some deadWiring.
Proof.
  intros Hc Hr. destruct o; simpl.
  - unfold attachChannel. destruct ch as [c|]; [|discriminate].
    destruct (negb _); simpl; by intros [= <-].
  - destruct (call_world cur method arg ret w)
      as (w1 & res & -> & _ & _ & _ & _ & Hrw & _).
    simpl. intros [= <-]. by rewrite Hrw.
  - rewrite call_async_body. destruct (channel (dPtr w)); simpl; intros [= <-]; simpl.
    + rewrite lookup_insert_ne; [done|].
      assert (r < nextPtr w) by (apply (c_fresh_replies w Hc); eauto). lia.
    + done.
  - destruct (subscribe_returns cur method arg handler w) as (w1 & r0 & Hsub).
    rewrite Hsub. simpl. intros [= <-].
    destruct (subscribe_world _ _ _ _ _ _ _ Hsub) as (_ & _ & _ & _ & Hrw & _).
    by rewrite Hrw.
  - intros [= <-]. unfold release. by destruct (holders w !! p) as [[|n]|].
  - intros [= <-]. unfold reply_error.
    destruct (replyWiring w !! reply) as [wi|] eqn:Hwi; [|done].
    destruct (connected (errorConnection wi)) eqn:Hconn; [|done].
    simpl. rewrite lookup_insert_ne; [done|]. intros <-.
    rewrite Hwi in Hr. injection Hr as ->. discriminate.
  - intros [= <-]. unfold reply_finished.
    destruct (replyWiring w !! reply) as [wi|] eqn:Hwi; [|done].
    destruct (connected (finishedConnection wi)) eqn:Hconn; [|done].
    simpl. rewrite lookup_insert_ne; [done|]. intros <-.
    rewrite Hwi in Hr. injection Hr as ->. discriminate.
  - intros [= <-]. unfold stream_error.
    destruct (streamWiring w !! stream) as [wi|]; [|done].
    by destruct (connected (errorConnection wi)).
  - intros [= <-]. unfold stream_finished.
    destruct (streamWiring w !! stream) as [wi|]; [|done].
    destruct (connected (finishedConnection wi)); [|done].
    unfold stream_finished_slot. by destruct (find_active w stream) as [[? ?]|].
  - by intros [= <-].
  - unfold timeout. destruct (timers w !! i) as [t|]; [|simpl; by intros [= <-]].
    destruct (deadline t <=? clock w); [|simpl; by intros [= <-]].
    unfold reconnect_slot. destruct (lock _ _); simpl.
    + destruct (channel (dPtr w)); simpl; [by intros [= <-]|discriminate].
    + by intros [= <-].
Qed.

Lemma run_keeps_dead_reply ops r : forall w w',
  consistent w -> replyWiring w !! r = Some deadWiring ->
  run ops w = Some w' -> replyWiring w' !! r = Some deadWiring.
Proof.
  induction ops as [|o ops IH]; intros w w' Hc Hr; simpl.
  - by intros [= <-].
  - destruct (exec o w) as [w1|] eqn:Hex; [|discriminate].
    apply IH; [by eapply consistent_exec|by eapply exec_keeps_dead_reply].
Qed.

(** C5: the asynchronous call wires both completion paths of a new reply.
    In every reachable world the two paths of a reply are connected together
    or gone together.  Whichever of the error and the finished signal fires
    first disconnects both paths and drops both captured copies of the shared
    pointer; the error path also forwards the status to the facade's error
    signal, the finished path emits nothing.  From then on, whatever else
    happens, a further error or finished signal of that reply runs nothing. *)
Theorem async_reply_completes_once svc ser owner ops w :
  run ops (QAbstractGrpcClient svc ser owner) = Some w ->
  (forall cur method arg ch,
     channel (dPtr w) = Some ch ->
     exists w1 r, call_async cur method arg w = Done w1 (Some r) /\
       replyWiring w !! r = None /\
       replyWiring w1 !! r = Some liveWiring /\
       channelLog w1 = channelLog w ++ [ChCallAsync method (service (dPtr w)) arg r]) /\
  (forall r wi,
     replyWiring w !! r = Some wi ->
     (wi = liveWiring \/ wi = deadWiring) /\
     (wi = deadWiring ->
        reply_finished r w = w /\ forall status, reply_error r status w = w) /\
     (wi = liveWiring ->
        errorSignal (reply_finished r w) = errorSignal w /\
        (forall status,
           errorSignal (reply_error r status w) = errorSignal w ++ [status]) /\
        forall first,
          first = reply_finished r \/ (exists status, first = reply_error r status) ->
          let w2 := first w in
          replyWiring w2 !! r = Some deadWiring /\
          wiring_refs (replyWiring w2 !! r) = 0 /\
          forall later w3, run later w2 = Some w3 ->
            replyWiring w3 !! r = Some deadWiring /\
            reply_finished r w3 = w3 /\
            forall status, reply_error r status w3 = w3)).
Proof.
  intros Hc%reachable_consistent. split.
  - intros cur method arg ch Hch. rewrite call_async_body, Hch.
    eexists _, _. split; [reflexivity|]. simpl. split_and!.
    + apply eq_None_not_Some. intros Hs%(c_fresh_replies w Hc). lia.
    + apply lookup_insert_eq.
    + reflexivity.
  - intros r wi Hwi. split; [exact (c_replies w Hc r wi Hwi)|]. split.
    + intros ->. by apply reply_events_dead.
    + intros ->. split_and!.
      * unfold reply_finished. by rewrite Hwi.
      * intros status. unfold reply_error. by rewrite Hwi.
      * intros first Hfirst. cbv zeta.
        assert (Hdead : replyWiring (first w) !! r = Some deadWiring).
        { destruct Hfirst as [->|[status ->]].
          - unfold reply_finished. rewrite Hwi. simpl. apply lookup_insert_eq.
          - unfold reply_error. rewrite Hwi. simpl. apply lookup_insert_eq. }
        assert (Hcons2 : consistent (first w)).
        { destruct Hfirst as [->|[status ->]].
          - by apply consistent_reply_finished.
          - by apply consistent_reply_error. }
        split; [exact Hdead|]. split; [by rewrite Hdead|].
        intros later w3 Hlater.
        pose proof (run_keeps_dead_reply later r _ _ Hcons2 Hdead Hlater) as Hd3.
        split; [exact Hd3|]. by apply reply_events_dead.
Qed.

(** A reply is created, fails, and then reports finished as well. *)
Lemma async_reply_completes_once_witness :
  let w1 := default feedWorld (after (call_async 1 "Ping"%string [] feedWorld)) in
  replyWiring w1 !! 2 = Some liveWiring /\
  errorSignal (reply_error 2 unavailable w1) = [unavailable] /\
  reply_finished 2 (reply_error 2 unavailable w1) = reply_error 2 unavailable w1.
Proof.
  cbv zeta.
  set (w1 := default feedWorld (after (call_async 1 "Ping"%string [] feedWorld))).
  assert (Hr : run (feedOps ++ [OpCallAsync 1 "Ping"%string []]) freshClient = Some w1)
    by (vm_compute; reflexivity).
  assert (Hlive : replyWiring w1 !! 2 = Some liveWiring) by (vm_compute; reflexivity).
  destruct (async_reply_completes_once "svc"%string 0 1 _ w1 Hr) as [_ Hdone].
  destruct (Hdone 2 liveWiring Hlive) as (_ & _ & Hfire).
  destruct (Hfire eq_refl) as (_ & Herr & Honce).
  split; [exact Hlive|]. split; [exact (Herr unavailable)|].
  destruct (Honce (reply_error 2 unavailable)
              (or_intror (ex_intro _ unavailable eq_refl))) as (_ & _ & Hlater).
  exact (proj1 (proj2 (Hlater [] _ eq_refl))).
Defined.

(** ** Reconnection after a stream error *)

(** C4: the error path of a wired stream emits the facade's error signal and
    arms one single-shot timer, due 1000 ms later, that holds a weak pointer
    to the stream: no use count changes and the channel receives nothing yet.
    A pending timer does nothing before it is due.  When it fires, it is
    removed; if the stream's use count has dropped to zero the channel
    receives nothing, otherwise the channel receives exactly one subscribe
    request for that stream. *)
Theorem error_path_reconnects_through_weak_pointer svc ser owner ops w :
  run ops (QAbstractGrpcClient svc ser owner) = Some w ->
  (forall p wi status,
     streamWiring w !! p = Some wi -> connected (errorConnection wi) = true ->
     let w1 := stream_error p status w in
     (exists m, timers w1 = timers w ++ [mkSingleShot (clock w + 1000) p m]) /\
     errorSignal w1 = errorSignal w ++ [status] /\
     channelLog w1 = channelLog w /\
     (forall q, use_count w1 q = use_count w q)) /\
  (forall i t,
     timers w !! i = Some t ->
     (clock w < deadline t -> timeout i w = Done w tt) /\
     (deadline t <= clock w -> use_count w (weakStream t) = 0 ->
        exists w', timeout i w = Done w' tt /\
          timers w' = delete i (timers w) /\
          channelLog w' = channelLog w) /\
     (deadline t <= clock w -> 0 < use_count w (weakStream t) ->
        exists w', timeout i w = Done w' tt /\
          timers w' = delete i (timers w) /\
          channelLog w'
          = channelLog w ++ [ChSubscribe (weakStream t) (service (dPtr w))])).
Proof.
  intros Hc%reachable_consistent. split.
  - intros p wi status Hwi Hconn. cbv zeta. unfold stream_error.
    rewrite Hwi, Hconn. unfold stream_error_slot. simpl. split_and!; eauto.
  - intros i t Hti. unfold timeout. rewrite Hti. split_and!.
    + intros Hlt. apply Nat.leb_gt in Hlt. by rewrite Hlt.
    + intros Hle Hzero. apply Nat.leb_le in Hle. rewrite Hle.
      unfold reconnect_slot, lock.
      change (use_count (set_timers (delete i (timers w)) w) (weakStream t))
        with (use_count w (weakStream t)).
      rewrite Hzero. simpl. eauto.
    + intros Hle Hpos. apply Nat.leb_le in Hle. rewrite Hle.
      unfold reconnect_slot, lock.
      change (use_count (set_timers (delete i (timers w)) w) (weakStream t))
        with (use_count w (weakStream t)).
      rewrite decide_True by exact Hpos. simpl.
      destruct (c_channel w Hc) as [ch Hch].
      { assert (is_Some (streamWiring w !! weakStream t)) as Hw
          by (apply (c_timers w Hc); eapply list_elem_of_lookup_2; eauto).
        apply (c_fresh_wiring w Hc) in Hw. lia. }
      rewrite Hch. eauto.
Qed.

Lemma error_path_reconnects_through_weak_pointer_witness :
  use_count abandonedWorld 0 = 0 /\
  exists w', timeout 0 abandonedWorld = Done w' tt /\
    timers w' = [] /\ channelLog w' = channelLog abandonedWorld.
Proof.
  split; [vm_compute; reflexivity|].
  assert (Hr : run abandonedOps freshClient = Some abandonedWorld)
    by (vm_compute; reflexivity).
  destruct (error_path_reconnects_through_weak_pointer "svc"%string 0 1
              abandonedOps abandonedWorld Hr) as [_ Hfire].
  destruct (Hfire 0 (mkSingleShot 1000 0 "Feed"%string) eq_refl) as (_ & Hdead & _).
  apply Hdead; [simpl; lia|vm_compute; reflexivity].
Defined.

(** The same timer with the stream still registered: one resubscribe. *)
Example reconnect_reachable_stream :
  0 < use_count failedWorld 0 /\
  timeout 0 failedWorld
  = Done (request 1 [] (ChSubscribe 0 "svc"%string) (set_timers [] failedWorld)) tt.
Proof. split; [vm_compute; lia|vm_compute; reflexivity]. Qed.

(** ** Further properties of subscribe *)

(** A world whose registry and stream objects are those after [subscribe]
    created stream [nextPtr w]. *)
Lemma unregistered_after_new w w1 ch method arg handler method' arg' :
  consistent w -> unregistered w method' arg' ->
  (method, arg) <> (method', arg') ->
  activeStreams (dPtr w1) = activeStreams (dPtr w) ++ [nextPtr w] ->
  streamObjs w1 = <[nextPtr w := mkStream method arg [handler] ch]> (streamObjs w) ->
  unregistered w1 method' arg'.
Proof.
  intros Hc Hun Hne Hreg Hobjs q s. rewrite Hreg, Hobjs.
  intros [Hq|Hq]%elem_of_app.
  - assert (q <> nextPtr w) as Hq'.
    { apply (c_allocated w Hc), (c_fresh_objs w Hc) in Hq. lia. }
    rewrite lookup_insert_ne by (apply not_eq_sym, Hq'). by apply Hun.
  - apply list_elem_of_singleton in Hq as ->. rewrite lookup_insert_eq.
    intros [= <-]. simpl. intros [-> ->]. by apply Hne.
Qed.

Lemma feedWorld_unregistered_Quotes : unregistered feedWorld "Quotes"%string [].
Proof.
  intros q s Hq Hs [Hm _]. change (activeStreams (dPtr feedWorld)) with [0; 1] in Hq.
  apply elem_of_cons in Hq as [->|Hq].
  - vm_compute in Hs. injection Hs as <-. discriminate.
  - apply list_elem_of_singleton in Hq as ->.
    vm_compute in Hs. injection Hs as <-. discriminate.
Qed.

Lemma feedWorld_unregistered_Trades : unregistered feedWorld "Trades"%string [].
Proof.
  intros q s Hq Hs [Hm _]. change (activeStreams (dPtr feedWorld)) with [0; 1] in Hq.
  apply elem_of_cons in Hq as [->|Hq].
  - vm_compute in Hs. injection Hs as <-. discriminate.
  - apply list_elem_of_singleton in Hq as ->.
    vm_compute in Hs. injection Hs as <-. discriminate.
Qed.

(** X1: with a channel attached and no registered stream of the requested
    method and argument, [subscribe] (from any thread) allocates a new stream
    holding the handler, connects both of its paths, sends exactly one
    subscribe request for it, appends it to the registry and returns it;
    older stream objects are untouched.  What the channel emits for the
    stream before its [subscribe] returns has run by then: each error before
    the first finished was notified and armed a timer, and a finished
    disconnected both paths.  With a channel that emits nothing there, no
    error is notified and the new stream has four owners (the caller, the
    registry and the two lambdas); after a finished it has two. *)
Theorem subscribe_registers_new_stream
    svc ser owner ops w ch cur method arg handler :
  run ops (QAbstractGrpcClient svc ser owner) = Some w ->
  channel (dPtr w) = Some ch ->
  unregistered w method arg ->
  let sigs := ch_subscribe ch method (service (dPtr w)) arg in
  exists w', subscribe cur method arg handler w = Done w' (Some (nextPtr w)) /\
    streamObjs w !! nextPtr w = None /\
    streamObjs w' !! nextPtr w = Some (mkStream method arg [handler] ch) /\
    activeStreams (dPtr w') = activeStreams (dPtr w) ++ [nextPtr w] /\
    streamWiring w' !! nextPtr w
    = Some (if finishes sigs then deadWiring else liveWiring) /\
    channelLog w' = channelLog w ++ [ChSubscribe (nextPtr w) (service (dPtr w))] /\
    errorSignal w' = errorSignal w ++ errors_before_finished sigs /\
    timers w'
    = timers w ++
      ((fun _ => mkSingleShot (clock w + 1000) (nextPtr w) method)
         <$> errors_before_finished sigs) /\
    use_count w' (nextPtr w) = (if finishes sigs then 2 else 4) /\
    (forall q, q <> nextPtr w -> streamObjs w' !! q = streamObjs w !! q).
Proof.
  intros Hc%reachable_consistent Hch Hun. cbv zeta.
  pose proof (subscribe_new_shape cur method arg handler w ch Hc Hch Hun) as Hsub.
  cbv zeta in Hsub. set (w' := hold (nextPtr w) _) in Hsub.
  assert (Hc' : consistent w').
  { apply (consistent_subscribe cur method arg handler w); [exact Hc|].
    by rewrite Hsub. }
  exists w'. split; [exact Hsub|].
  assert (Hnh : holders w !! nextPtr w = None).
  { apply eq_None_not_Some. intros Hs%(c_fresh_holders w Hc). lia. }
  assert (Hwi : streamWiring w' !! nextPtr w
                = Some (if finishes (ch_subscribe ch method (service (dPtr w)) arg)
                        then deadWiring else liveWiring)).
  { subst w'. simpl. apply lookup_delivered_new. }
  split_and!.
  - apply eq_None_not_Some. intros Hs%(c_fresh_objs w Hc). lia.
  - subst w'. simpl. by rewrite lookup_insert_eq.
  - reflexivity.
  - exact Hwi.
  - reflexivity.
  - reflexivity.
  - reflexivity.
  - rewrite (registered_use_count w' _ Hc'), Hwi.
    + subst w'. simpl. rewrite lookup_insert_eq, Hnh.
      by destruct (finishes _).
    + subst w'. simpl. apply elem_of_app. right. by apply list_elem_of_singleton.
  - intros q Hq. subst w'. simpl.
    by rewrite lookup_insert_ne by (apply not_eq_sym, Hq).
Qed.

Lemma subscribe_registers_new_stream_witness :
  exists w', subscribe 4 "Quotes"%string [] 8 feedWorld = Done w' (Some 2) /\
    activeStreams (dPtr w') = [0; 1; 2] /\
    channelLog w' = channelLog feedWorld ++ [ChSubscribe 2 "svc"%string].
Proof.
  assert (Hr : run feedOps freshClient = Some feedWorld) by (vm_compute; reflexivity).
  destruct (subscribe_registers_new_stream "svc"%string 0 1 feedOps feedWorld
              (echoChannel 1) 4 "Quotes"%string [] 8 Hr eq_refl
              feedWorld_unregistered_Quotes)
    as (w' & Hsub & _ & _ & Hreg & _ & Hlog & _).
  exists w'. split; [exact Hsub|]. split; [exact Hreg|exact Hlog].
Defined.

(** X2: two [subscribe] calls with the same method and argument, from any
    threads, on a facade that had no such stream: both return the same
    handle, its handler list holds both handlers in order, the registry grew
    by that one stream, the channel received exactly one subscribe request,
    and the callers hold two copies of the shared pointer. *)
Theorem subscribe_twice_shares_one_stream
    svc ser owner ops w ch cur1 cur2 method arg h1 h2 :
  run ops (QAbstractGrpcClient svc ser owner) = Some w ->
  channel (dPtr w) = Some ch ->
  unregistered w method arg ->
  exists w1 w2 p,
    subscribe cur1 method arg h1 w = Done w1 (Some p) /\
    subscribe cur2 method arg h2 w1 = Done w2 (Some p) /\
    (s_handlers <$> streamObjs w2 !! p) = Some [h1; h2] /\
    activeStreams (dPtr w2) = activeStreams (dPtr w) ++ [p] /\
    channelLog w2 = channelLog w ++ [ChSubscribe p (service (dPtr w))] /\
    holders w2 !! p = Some 2.
Proof.
  intros Hc%reachable_consistent Hch Hun.
  pose proof (subscribe_new_shape cur1 method arg h1 w ch Hc Hch Hun) as Hsub1.
  cbv zeta in Hsub1. set (w1 := hold (nextPtr w) _) in Hsub1.
  assert (Hc1 : consistent w1).
  { apply (consistent_subscribe cur1 method arg h1 w); [exact Hc|].
    by rewrite Hsub1. }
  assert (Hnh : holders w !! nextPtr w = None).
  { apply eq_None_not_Some. intros Hs%(c_fresh_holders w Hc). lia. }
  assert (Hi : activeStreams (dPtr w1) !! length (activeStreams (dPtr w))
               = Some (nextPtr w)).
  { subst w1. simpl. by rewrite lookup_app_r, Nat.sub_diag by lia. }
  assert (Hs : streamObjs w1 !! nextPtr w = Some (mkStream method arg [h1] ch)).
  { subst w1. simpl. by rewrite lookup_insert_eq. }
  pose proof (subscribe_found_shape cur2 method arg h2 w1 ch _ _ _ Hc1 Hch Hi Hs
                eq_refl eq_refl) as Hsub2.
  eexists w1, _, (nextPtr w). split; [exact Hsub1|]. split; [exact Hsub2|].
  simpl. split_and!.
  - rewrite lookup_alter_eq.
    rewrite lookup_insert_ne by lia. by rewrite lookup_insert_eq.
  - reflexivity.
  - reflexivity.
  - rewrite lookup_insert_eq, lookup_insert_eq, Hnh. reflexivity.
Qed.

Lemma subscribe_twice_shares_one_stream_witness :
  exists w1 w2 p,
    subscribe 1 "Quotes"%string [] 8 feedWorld = Done w1 (Some p) /\
    subscribe 4 "Quotes"%string [] 9 w1 = Done w2 (Some p) /\
    (s_handlers <$> streamObjs w2 !! p) = Some [8; 9].
Proof.
  assert (Hr : run feedOps freshClient = Some feedWorld) by (vm_compute; reflexivity).
  destruct (subscribe_twice_shares_one_stream "svc"%string 0 1 feedOps feedWorld
              (echoChannel 1) 1 4 "Quotes"%string [] 8 9 Hr eq_refl
              feedWorld_unregistered_Quotes)
    as (w1 & w2 & p & H1 & H2 & Hh & _).
  exists w1, w2, p. split; [exact H1|]. split; [exact H2|exact Hh].
Defined.

(** X3: two [subscribe] calls whose method or argument differ, on a facade
    that had neither stream: the handles are distinct, both streams are
    appended to the registry in call order, and the channel received one
    subscribe request for each. *)
Theorem subscribe_distinct_keys_distinct_streams
    svc ser owner ops w ch cur1 cur2 m1 a1 h1 m2 a2 h2 :
  run ops (QAbstractGrpcClient svc ser owner) = Some w ->
  channel (dPtr w) = Some ch ->
  unregistered w m1 a1 -> unregistered w m2 a2 ->
  (m1, a1) <> (m2, a2) ->
  exists w1 w2 p1 p2,
    subscribe cur1 m1 a1 h1 w = Done w1 (Some p1) /\
    subscribe cur2 m2 a2 h2 w1 = Done w2 (Some p2) /\
    p1 <> p2 /\
    activeStreams (dPtr w2) = activeStreams (dPtr w) ++ [p1; p2] /\
    channelLog w2
    = channelLog w ++ [ChSubscribe p1 (service (dPtr w));
                       ChSubscribe p2 (service (dPtr w))].
Proof.
  intros Hc%reachable_consistent Hch Hun1 Hun2 Hne.
  pose proof (subscribe_new_shape cur1 m1 a1 h1 w ch Hc Hch Hun1) as Hsub1.
  cbv zeta in Hsub1. set (w1 := hold (nextPtr w) _) in Hsub1.
  assert (Hun2' : unregistered w1 m2 a2).
  { by apply (unregistered_after_new w w1 ch m1 a1 h1 m2 a2). }
  assert (Hc1 : consistent w1).
  { apply (consistent_subscribe cur1 m1 a1 h1 w); [exact Hc|]. by rewrite Hsub1. }
  pose proof (subscribe_new_shape cur2 m2 a2 h2 w1 ch Hc1 Hch Hun2') as Hsub2.
  cbv zeta in Hsub2.
  eexists w1, _, (nextPtr w), (nextPtr w1).
  split; [exact Hsub1|]. split; [exact Hsub2|]. simpl. split_and!.
  - lia.
  - by rewrite <- app_assoc.
  - by rewrite <- app_assoc.
Qed.

Lemma subscribe_distinct_keys_distinct_streams_witness :
  exists w1 w2,
    subscribe 1 "Quotes"%string [] 8 feedWorld = Done w1 (Some 2) /\
    subscribe 1 "Trades"%string [] 9 w1 = Done w2 (Some 3) /\
    activeStreams (dPtr w2) = [0; 1; 2; 3].
Proof.
  assert (Hr : run feedOps freshClient = Some feedWorld) by (vm_compute; reflexivity).
  destruct (subscribe_distinct_keys_distinct_streams "svc"%string 0 1 feedOps
              feedWorld (echoChannel 1) 1 1 "Quotes"%string [] 8 "Trades"%string [] 9
              Hr eq_refl feedWorld_unregistered_Quotes feedWorld_unregistered_Trades
              ltac:(discriminate))
    as (w1 & w2 & p1 & p2 & H1 & H2 & _ & Hreg & _).
  assert (p1 = 2) as ->.
  { vm_compute in H1. by injection H1. }
  assert (p2 = 3) as ->.
  { rewrite subscribe_body in H1. vm_compute in H1. injection H1 as <-.
    vm_compute in H2. by injection H2. }
  exists w1, w2. split; [exact H1|]. split; [exact H2|exact Hreg].
Defined.

(** X4: when a stream finished between operations (its finished signal
    arrived after the [subscribe] that created it had returned, so the
    finished path erased it), subscribing again to its method and argument
    does not revive it: [subscribe] builds a new stream with a new handle,
    holding only the new handler, registers it and sends one subscribe
    request for it; the finished stream stays outside the registry with its
    object unchanged. *)
Theorem subscribe_after_finished_makes_new_stream
    svc ser owner ops w ch p wi s cur handler :
  run ops (QAbstractGrpcClient svc ser owner) = Some w ->
  channel (dPtr w) = Some ch ->
  streamWiring w !! p = Some wi ->
  connected (finishedConnection wi) = true ->
  streamObjs w !! p = Some s ->
  let w1 := stream_finished p w in
  exists w2,
    subscribe cur (s_method s) (s_arg s) handler w1 = Done w2 (Some (nextPtr w)) /\
    nextPtr w <> p /\
    (p ∉ activeStreams (dPtr w2)) /\
    nextPtr w ∈ activeStreams (dPtr w2) /\
    streamObjs w2 !! nextPtr w
    = Some (mkStream (s_method s) (s_arg s) [handler] ch) /\
    streamObjs w2 !! p = Some s /\
    channelLog w2 = channelLog w ++ [ChSubscribe (nextPtr w) (service (dPtr w))].
Proof.
  intros Hc%reachable_consistent Hch Hwi Hconn Hs. cbv zeta.
  pose proof (consistent_stream_finished p w Hc) as Hc1.
  destruct (stream_finished_shape w p wi Hc Hwi Hconn) as (i & Hi & Hshape).
  rewrite Hshape in *. clear Hshape.
  set (w1 := set_streamWiring _ _) in *.
  pose proof (registry_NoDup w (c_distinct w Hc) (c_allocated w Hc)) as Hnd.
  pose proof (NoDup_delete_lookup _ i p Hnd Hi) as Hgone.
  assert (Hun : unregistered w1 (s_method s) (s_arg s)).
  { intros q s' Hq Hs' [Hm Ha]. subst w1. simpl in Hq, Hs'.
    apply elem_of_delete_lookup in Hq as (j & Hne & Hj).
    apply Hne. refine (c_distinct w Hc j i q p Hj Hi _).
    unfold deref_eq. rewrite Hs', Hs. by split. }
  assert (Hp : p < nextPtr w) by (apply (c_fresh_objs w Hc); eauto).
  pose proof (subscribe_new_shape cur (s_method s) (s_arg s) handler w1 ch
                Hc1 Hch Hun) as Hsub.
  cbv zeta in Hsub.
  eexists. split; [exact Hsub|]. simpl. split_and!.
  - lia.
  - intros [Hin|Hin]%elem_of_app; [contradiction|].
    apply list_elem_of_singleton in Hin. lia.
  - apply elem_of_app. right. by apply list_elem_of_singleton.
  - by rewrite lookup_insert_eq.
  - by rewrite lookup_insert_ne by lia.
  - reflexivity.
Qed.

Lemma subscribe_after_finished_makes_new_stream_witness :
  exists w2,
    subscribe 1 "Feed"%string [] 9 (stream_finished 0 feedWorld) = Done w2 (Some 2) /\
    activeStreams (dPtr w2) = [1; 2].
Proof.
  assert (Hr : run feedOps freshClient = Some feedWorld) by (vm_compute; reflexivity).
  destruct (subscribe_after_finished_makes_new_stream "svc"%string 0 1 feedOps
              feedWorld (echoChannel 1) 0 liveWiring
              (mkStream "Feed"%string [] [3] (echoChannel 1)) 1 9
              Hr eq_refl eq_refl eq_refl eq_refl) as (w2 & Hsub & _).
  exists w2. split; [exact Hsub|].
  vm_compute in Hsub. injection Hsub as <-. reflexivity.
Defined.

(** ** Further properties of the reconnection *)

(** X5: a stream that is in the registry never expires, whatever its callers
    did with their handles: the registry entry alone keeps its use count
    positive (the connected lambdas add their two copies), so
    [weakStream.lock()] succeeds and a due reconnection timer for it always
    sends one subscribe request, issued from the facade's thread. *)
Theorem registered_stream_always_reconnects svc ser owner ops w i t :
  run ops (QAbstractGrpcClient svc ser owner) = Some w ->
  timers w !! i = Some t ->
  deadline t <= clock w ->
  weakStream t ∈ activeStreams (dPtr w) ->
  use_count w (weakStream t)
  = default 0 (holders w !! weakStream t) + 1
    + wiring_refs (streamWiring w !! weakStream t) /\
  lock w (weakStream t) = Some (weakStream t) /\
  timeout i w
  = Done (request (thread w) [] (ChSubscribe (weakStream t) (service (dPtr w)))
            (set_timers (delete i (timers w)) w)) tt.
Proof.
  intros Hc%reachable_consistent Hti Hdue Hreg.
  pose proof (registered_use_count w _ Hc Hreg) as Hcount.
  assert (Hlock : lock w (weakStream t) = Some (weakStream t)).
  { unfold lock. rewrite decide_True; [done|lia]. }
  split; [exact Hcount|]. split; [exact Hlock|].
  unfold timeout. rewrite Hti. apply Nat.leb_le in Hdue. rewrite Hdue.
  unfold reconnect_slot.
  change (lock (set_timers (delete i (timers w)) w) (weakStream t))
    with (lock w (weakStream t)).
  rewrite Hlock. simpl.
  destruct (c_channel w Hc) as [ch Hch].
  { apply (c_allocated w Hc), (c_fresh_objs w Hc) in Hreg. lia. }
  by rewrite Hch.
Qed.

Lemma registered_stream_always_reconnects_witness :
  holders (release 0 failedWorld) !! 0 = Some 0 /\
  timeout 0 (release 0 failedWorld)
  = Done (request 1 [] (ChSubscribe 0 "svc"%string)
            (set_timers [] (release 0 failedWorld))) tt.
Proof.
  split; [vm_compute; reflexivity|].
  assert (Hr : run (failedOps ++ [OpRelease 0]) freshClient
               = Some (release 0 failedWorld)) by (vm_compute; reflexivity).
  refine (proj2 (proj2 (registered_stream_always_reconnects "svc"%string 0 1 _
            (release 0 failedWorld) 0 (mkSingleShot 1000 0 "Feed"%string)
            Hr eq_refl _ _))).
  - vm_compute. lia.
  - vm_compute. apply list_elem_of_here.
Defined.

(** X6: a reconnection timer armed before a stream finished still fires for
    it when a caller kept the handle: the channel receives a subscribe
    request for the finished stream, yet the timer leaves the registry as it
    is and the stream's connections stay gone, so the facade ignores its
    later error and finished signals. *)
Theorem finished_stream_held_by_caller_is_resubscribed
    svc ser owner ops w i t n :
  run ops (QAbstractGrpcClient svc ser owner) = Some w ->
  timers w !! i = Some t ->
  deadline t <= clock w ->
  streamWiring w !! weakStream t = Some deadWiring ->
  holders w !! weakStream t = Some (S n) ->
  exists w', timeout i w = Done w' tt /\
    channelLog w' = channelLog w ++ [ChSubscribe (weakStream t) (service (dPtr w))] /\
    activeStreams (dPtr w') = activeStreams (dPtr w) /\
    streamWiring w' !! weakStream t = Some deadWiring /\
    stream_finished (weakStream t) w' = w' /\
    (forall status, stream_error (weakStream t) status w' = w').
Proof.
  intros Hc%reachable_consistent Hti Hdue Hdead Hheld.
  assert (Hlock : lock w (weakStream t) = Some (weakStream t)).
  { assert (0 < use_count w (weakStream t)) as Hpos
      by (unfold use_count; rewrite Hheld; simpl; lia).
    unfold lock. by rewrite decide_True. }
  destruct (c_channel w Hc) as [ch Hch].
  { assert (is_Some (streamWiring w !! weakStream t)) as Hw by eauto.
    apply (c_fresh_wiring w Hc) in Hw. lia. }
  eexists. split.
  - unfold timeout. rewrite Hti. apply Nat.leb_le in Hdue. rewrite Hdue.
    unfold reconnect_slot.
    change (lock (set_timers (delete i (timers w)) w) (weakStream t))
      with (lock w (weakStream t)).
    rewrite Hlock. simpl. rewrite Hch. reflexivity.
  - simpl. split_and!; try done.
    + unfold stream_finished. simpl. by rewrite Hdead.
    + intros status. unfold stream_error. simpl. by rewrite Hdead.
Qed.

Lemma finished_stream_held_by_caller_is_resubscribed_witness :
  (0 ∉ activeStreams (dPtr finishedHeldWorld)) /\
  exists w', timeout 0 finishedHeldWorld = Done w' tt /\
    channelLog w' = channelLog finishedHeldWorld ++ [ChSubscribe 0 "svc"%string].
Proof.
  split.
  - change (activeStreams (dPtr finishedHeldWorld)) with [1].
    intros Hin%list_elem_of_singleton. discriminate.
  - assert (Hr : run finishedHeldOps freshClient = Some finishedHeldWorld)
      by (vm_compute; reflexivity).
    destruct (finished_stream_held_by_caller_is_resubscribed "svc"%string 0 1
                finishedHeldOps finishedHeldWorld 0
                (mkSingleShot 1000 0 "Feed"%string) 0 Hr eq_refl
                ltac:(vm_compute; lia) ltac:(vm_compute; reflexivity)
                ltac:(vm_compute; reflexivity))
      as (w' & Ht & Hlog & _).
    exists w'. split; [exact Ht|exact Hlog].
Defined.

(** X7: the error path of a stream is not one-shot.  Each error signal of a
    wired stream emits the facade's error signal and arms one more timer,
    and leaves the connections, the registry and the channel alone; a burst
    of errors therefore yields as many notifications and as many pending
    reconnections, all for the same stream. *)
Theorem stream_errors_accumulate_timers statuses : forall w p wi,
  streamWiring w !! p = Some wi ->
  connected (errorConnection wi) = true ->
  exists w', run (EvStreamError p <$> statuses) w = Some w' /\
    errorSignal w' = errorSignal w ++ statuses /\
    timers w'
    = timers w ++
      ((fun _ => mkSingleShot (clock w + 1000) p
                   (default EmptyString (s_method <$> streamObjs w !! p)))
         <$> statuses) /\
    dPtr w' = dPtr w /\
    streamWiring w' = streamWiring w /\
    streamObjs w' = streamObjs w /\
    clock w' = clock w /\
    channelLog w' = channelLog w.
Proof.
  induction statuses as [|status l IH]; intros w p wi Hwi Hconn.
  - exists w. simpl. rewrite !app_nil_r. done.
  - simpl. unfold stream_error at 1. rewrite Hwi, Hconn.
    destruct (IH (stream_error_slot p status w) p wi Hwi Hconn)
      as (w' & Hrun & Herr & Htim & Hd & Hsw & Hso & Hcl & Hlog).
    exists w'. split; [exact Hrun|]. simpl in *.
    rewrite Herr, Htim, Hd, Hsw, Hso, Hcl, Hlog, <- !app_assoc. done.
Qed.

Lemma stream_errors_accumulate_timers_witness :
  exists w', run [EvStreamError 0 unavailable; EvStreamError 0 noChannelStatus]
               feedWorld = Some w' /\
    errorSignal w' = [unavailable; noChannelStatus] /\
    timers w' = [mkSingleShot 1000 0 "Feed"%string; mkSingleShot 1000 0 "Feed"%string].
Proof.
  destruct (stream_errors_accumulate_timers [unavailable; noChannelStatus]
              feedWorld 0 liveWiring eq_refl eq_refl)
    as (w' & Hrun & Herr & Htim & _).
  exists w'. split; [exact Hrun|]. split; [exact Herr|exact Htim].
Defined.

(** ** Further properties of the asynchronous call *)

(** X8: asynchronous calls are never shared.  Two calls with the same method
    and argument, from any threads, return two different reply handles, each
    with both completion paths connected, and the channel receives one
    request per call; the registry of streams and the error signal are not
    touched. *)
Theorem async_calls_get_separate_replies cur1 cur2 method arg w ch :
  channel (dPtr w) = Some ch ->
  exists w1 w2 r1 r2,
    call_async cur1 method arg w = Done w1 (Some r1) /\
    call_async cur2 method arg w1 = Done w2 (Some r2) /\
    r1 <> r2 /\
    replyWiring w2 !! r1 = Some liveWiring /\
    replyWiring w2 !! r2 = Some liveWiring /\
    channelLog w2
    = channelLog w ++ [ChCallAsync method (service (dPtr w)) arg r1;
                       ChCallAsync method (service (dPtr w)) arg r2] /\
    activeStreams (dPtr w2) = activeStreams (dPtr w) /\
    errorSignal w2 = errorSignal w.
Proof.
  intros Hch. eexists _, _, (nextPtr w), (S (nextPtr w)).
  split; [by rewrite call_async_body, Hch|].
  split; [rewrite call_async_body; simpl; by rewrite Hch|].
  simpl. split_and!.
  - lia.
  - rewrite lookup_insert_ne by lia. by rewrite lookup_insert_eq.
  - by rewrite lookup_insert_eq.
  - by rewrite <- app_assoc.
  - reflexivity.
  - reflexivity.
Qed.

Lemma async_calls_get_separate_replies_witness :
  exists w1 w2,
    call_async 1 "Ping"%string [] feedWorld = Done w1 (Some 2) /\
    call_async 6 "Ping"%string [] w1 = Done w2 (Some 3).
Proof.
  destruct (async_calls_get_separate_replies 1 6 "Ping"%string [] feedWorld
              (echoChannel 1) eq_refl)
    as (w1 & w2 & r1 & r2 & H1 & H2 & _).
  assert (r1 = 2) as -> by (vm_compute in H1; by injection H1).
  assert (r2 = 3) as ->.
  { rewrite call_async_body in H1. vm_compute in H1. injection H1 as <-.
    vm_compute in H2. by injection H2. }
  exists w1, w2. split; [exact H1|exact H2].
Defined.

(** ** What the private fields go through *)

(** One operation keeps the service name and the facade's thread; the channel
    and the serializer either both stay or are both taken from a channel
    that was attached. *)
Lemma exec_private o w w' :
  exec o w = Some w' ->
  service (dPtr w') = service (dPtr w) /\
  thread w' = thread w /\
  ((channel (dPtr w') = channel (dPtr w) /\
    serializer (dPtr w') = serializer (dPtr w)) \/
   (exists ch, channel (dPtr w') = Some ch /\
      serializer (dPtr w') = ch_serializer ch)).
Proof.
  destruct o; simpl.
  - unfold attachChannel. destruct ch as [c|]; [|discriminate].
    destruct (negb _); simpl; intros [= <-]; simpl; eauto 10.
  - destruct (call_world cur method arg ret w)
      as (w1 & res & -> & Hd & Ht & _).
    simpl. intros [= <-]. rewrite Hd, Ht. auto.
  - rewrite call_async_body. destruct (channel (dPtr w)) eqn:Hch; simpl; intros [= <-];
      simpl; auto.
  - destruct (subscribe_returns cur method arg handler w) as (w1 & r & Hsub).
    rewrite Hsub. simpl. intros [= <-].
    destruct (subscribe_world _ _ _ _ _ _ _ Hsub) as (Ht & Hc & Hs & Hz & _).
    rewrite Ht, Hc, Hs, Hz. auto.
  - intros [= <-]. unfold release. destruct (holders w !! p) as [[|n]|]; auto.
  - intros [= <-]. unfold reply_error.
    destruct (replyWiring w !! reply) as [wi|]; [|auto].
    destruct (connected (errorConnection wi)); simpl; auto.
  - intros [= <-]. unfold reply_finished.
    destruct (replyWiring w !! reply) as [wi|]; [|auto].
    destruct (connected (finishedConnection wi)); simpl; auto.
  - intros [= <-]. unfold stream_error.
    destruct (streamWiring w !! stream) as [wi|]; [|auto].
    destruct (connected (errorConnection wi)); simpl; auto.
  - intros [= <-]. unfold stream_finished.
    destruct (streamWiring w !! stream) as [wi|]; [|auto].
    destruct (connected (finishedConnection wi)); [|auto].
    unfold stream_finished_slot.
    destruct (find_active w stream) as [[? ?]|]; simpl; auto.
  - intros [= <-]. simpl. auto.
  - unfold timeout. destruct (timers w !! i) as [t|]; [|simpl; intros [= <-]; auto].
    destruct (deadline t <=? clock w); [|simpl; intros [= <-]; auto].
    unfold reconnect_slot. destruct (lock _ _); simpl.
    + destruct (channel (dPtr w)) eqn:Hch; simpl; [intros [= <-]; simpl; auto|discriminate].
    + intros [= <-]. simpl. auto.
Qed.

Lemma run_private ops : forall w w',
  run ops w = Some w' ->
  service (dPtr w') = service (dPtr w) /\
  thread w' = thread w /\
  (is_Some (channel (dPtr w)) -> is_Some (channel (dPtr w'))).
Proof.
  induction ops as [|o ops IH]; intros w w'; simpl.
  - intros [= <-]. auto.
  - destruct (exec o w) as [w1|] eqn:Hex; [|discriminate]. intros Hrun.
    destruct (exec_private o w w1 Hex) as (Hs & Ht & Hch).
    destruct (IH w1 w' Hrun) as (Hs' & Ht' & Hch').
    rewrite Hs', Ht', Hs, Ht. split_and!; try done.
    intros Hsome. apply Hch'.
    destruct Hch as [[-> _]|(ch & -> & _)]; eauto.
Qed.

(** X9: the service name given to the constructor and the facade's thread
    never change, and a channel, once attached, is never detached: in every
    later world some channel is attached (a further [attachChannel] can only
    replace it). *)
Theorem service_and_thread_fixed_channel_kept svc ser owner ops w later w' :
  run ops (QAbstractGrpcClient svc ser owner) = Some w ->
  run later w = Some w' ->
  service (dPtr w') = svc /\
  thread w' = owner /\
  (is_Some (channel (dPtr w)) -> is_Some (channel (dPtr w'))).
Proof.
  intros H1 H2.
  destruct (run_private ops _ w H1) as (Hs & Ht & _).
  destruct (run_private later w w' H2) as (Hs' & Ht' & Hch).
  rewrite Hs', Ht', Hs, Ht. done.
Qed.

Lemma service_and_thread_fixed_channel_kept_witness :
  service (dPtr abandonedWorld) = "svc"%string /\
  thread abandonedWorld = 1 /\
  is_Some (channel (dPtr abandonedWorld)).
Proof.
  assert (H1 : run [OpAttachChannel 1 (Some (echoChannel 1))] freshClient
               = Some (set_dPtr (mkPrivate (Some (echoChannel 1)) "svc"%string 7 [])
                         freshClient)) by reflexivity.
  assert (H2 : run (tail abandonedOps)
                 (set_dPtr (mkPrivate (Some (echoChannel 1)) "svc"%string 7 [])
                    freshClient) = Some abandonedWorld)
    by (vm_compute; reflexivity).
  destruct (service_and_thread_fixed_channel_kept "svc"%string 0 1 _ _ _ _ H1 H2)
    as (Hs & Ht & Hch).
  split; [exact Hs|]. split; [exact Ht|]. apply Hch. simpl. eauto.
Defined.

Lemma run_serializer ser ops : forall w w',
  QAbstractGrpcClient_serializer w
  = match channel (dPtr w) with Some ch => ch_serializer ch | None => ser end ->
  run ops w = Some w' ->
  QAbstractGrpcClient_serializer w'
  = match channel (dPtr w') with Some ch => ch_serializer ch | None => ser end.
Proof.
  unfold QAbstractGrpcClient_serializer.
  induction ops as [|o ops IH]; intros w w' Hw; simpl.
  - by intros [= <-].
  - destruct (exec o w) as [w1|] eqn:Hex; [|discriminate].
    apply IH. destruct (exec_private o w w1 Hex) as (_ & _ & Hch).
    destruct Hch as [[-> ->]|(ch & -> & ->)]; done.
Qed.

(** X10: [serializer()] always answers with the serializer of the channel
    that is attached at that moment, and with the constructor's default
    serializer as long as no channel is attached. *)
Theorem serializer_follows_attached_channel svc ser owner ops w :
  run ops (QAbstractGrpcClient svc ser owner) = Some w ->
  QAbstractGrpcClient_serializer w
  = match channel (dPtr w) with
    | Some ch => ch_serializer ch
    | None => ser
    end.
Proof. apply run_serializer. reflexivity. Qed.

Lemma serializer_follows_attached_channel_witness :
  QAbstractGrpcClient_serializer freshClient = 0 /\
  QAbstractGrpcClient_serializer feedWorld = 7.
Proof.
  split.
  - exact (serializer_follows_attached_channel "svc"%string 0 1 [] freshClient eq_refl).
  - assert (Hr : run feedOps freshClient = Some feedWorld) by (vm_compute; reflexivity).
    exact (serializer_follows_attached_channel "svc"%string 0 1 feedOps feedWorld Hr).
Defined.

(** ** A facade without a channel *)

Lemma untouched_emit w :
  untouched w -> untouched (emit_error noChannelStatus w).
Proof.
  intros (Hlog & Hn & Herr). split_and!; simpl; try done.
  apply Forall_app. split; [done|]. by apply Forall_singleton.
Qed.

Lemma exec_untouched o w w' :
  consistent w ->
  (channel (dPtr w) = None -> untouched w) ->
  exec o w = Some w' ->
  channel (dPtr w') = None -> untouched w'.
Proof.
  intros Hc Hun Hex Hnone.
  assert (Hch : channel (dPtr w) = None).
  { destruct (exec_private o w w' Hex) as (_ & _ & [[Heq _]|(ch & Heq & _)]);
      congruence. }
  specialize (Hun Hch). pose proof Hun as (Hlog & Hn & Herr).
  assert (Hsw : forall p, streamWiring w !! p = None).
  { intros p. apply eq_None_not_Some. intros Hs%(c_fresh_wiring w Hc). lia. }
  assert (Hrw : forall p, replyWiring w !! p = None).
  { intros p. apply eq_None_not_Some. intros Hs%(c_fresh_replies w Hc). lia. }
  revert Hex. destruct o; simpl.
  - unfold attachChannel. destruct ch as [c|]; [|discriminate].
    destruct (negb _); simpl; intros [= <-]; [done|].
    simpl in Hnone. discriminate.
  - rewrite call_body, Hch. simpl. intros [= <-]. by apply untouched_emit.
  - rewrite call_async_body, Hch. simpl. intros [= <-]. by apply untouched_emit.
  - rewrite subscribe_body, Hch. simpl. intros [= <-]. by apply untouched_emit.
  - intros [= <-]. unfold release. by destruct (holders w !! p) as [[|n]|].
  - intros [= <-]. unfold reply_error. by rewrite Hrw.
  - intros [= <-]. unfold reply_finished. by rewrite Hrw.
  - intros [= <-]. unfold stream_error. by rewrite Hsw.
  - intros [= <-]. unfold stream_finished. by rewrite Hsw.
  - by intros [= <-].
  - unfold timeout. destruct (timers w !! i) as [t|] eqn:Hti.
    + apply list_elem_of_lookup_2, (c_timers w Hc) in Hti.
      rewrite Hsw in Hti. by destruct Hti.
    + simpl. by intros [= <-].
Qed.

Lemma run_untouched ops : forall w w',
  consistent w ->
  (channel (dPtr w) = None -> untouched w) ->
  run ops w = Some w' ->
  channel (dPtr w') = None -> untouched w'.
Proof.
  induction ops as [|o ops IH]; intros w w' Hc Hun; simpl.
  - by intros [= <-].
  - destruct (exec o w) as [w1|] eqn:Hex; [|discriminate].
    apply IH; [by eapply consistent_exec|by eapply exec_untouched].
Qed.

(** X11: as long as no channel is attached, whatever was called, the facade
    has sent nothing to any channel, owns no stream, no reply wiring and no
    timer, and every error notification it has emitted is the status
    [Unknown], "No channel(s) attached.". *)
Theorem without_channel_nothing_happens svc ser owner ops w :
  run ops (QAbstractGrpcClient svc ser owner) = Some w ->
  channel (dPtr w) = None ->
  channelLog w = [] /\
  activeStreams (dPtr w) = [] /\
  timers w = [] /\
  streamWiring w = ∅ /\
  replyWiring w = ∅ /\
  Forall (fun status => status = mkStatus Unknown "No channel(s) attached."%string)
    (errorSignal w).
Proof.
  intros Hrun Hnone.
  pose proof (reachable_consistent _ _ _ _ _ Hrun) as Hc.
  assert (Hun : untouched w).
  { eapply run_untouched; [apply consistent_init| |exact Hrun|exact Hnone].
    intros _. split_and!; simpl; try done. }
  destruct Hun as (Hlog & Hn & Herr).
  assert (Hsw : forall p, streamWiring w !! p = None).
  { intros p. apply eq_None_not_Some. intros Hs%(c_fresh_wiring w Hc). lia. }
  split_and!; try done.
  - apply elem_of_nil_inv. intros p Hp%(c_allocated w Hc)%(c_fresh_objs w Hc). lia.
  - apply elem_of_nil_inv. intros t Ht%(c_timers w Hc). rewrite Hsw in Ht.
    by destruct Ht.
  - by apply map_empty.
  - apply map_empty. intros p. apply eq_None_not_Some.
    intros Hs%(c_fresh_replies w Hc). lia.
Qed.

Lemma without_channel_nothing_happens_witness :
  exists w,
    run [OpSubscribe 1 "Feed"%string [] 3; OpCall 2 "Ping"%string [] [];
         OpAttachChannel 1 (Some (echoChannel 2)); EvTimeout 0;
         OpCallAsync 1 "Ping"%string []] freshClient = Some w /\
    channelLog w = [] /\
    length (errorSignal w) = 3.
Proof.
  eexists. split; [vm_compute; reflexivity|].
  split; [|vm_compute; reflexivity].
  refine (proj1 (without_channel_nothing_happens "svc"%string 0 1
    [OpSubscribe 1 "Feed"%string [] 3; OpCall 2 "Ping"%string [] [];
     OpAttachChannel 1 (Some (echoChannel 2)); EvTimeout 0;
     OpCallAsync 1 "Ping"%string []] _ _ _)); vm_compute; reflexivity.
Defined.

(** ** Null safety *)

Lemma exec_is_Some o w :
  consistent w -> attaches_null o = false -> is_Some (exec o w).
Proof.
  intros Hc Hnull. destruct o; simpl; eauto.
  - destruct ch as [c|]; [|discriminate]. unfold attachChannel.
    destruct (negb _); simpl; eauto.
  - destruct (call_returns cur method arg ret w) as (w' & r & ->). simpl. eauto.
  - destruct (call_async_returns cur method arg w) as (w' & r & ->). simpl. eauto.
  - destruct (subscribe_returns cur method arg handler w) as (w' & r & ->).
    simpl. eauto.
  - destruct (timeout_no_crash i w Hc) as (w' & ->). simpl. eauto.
Qed.

(** X12: the only null dereference the facade can run into is a null channel
    handed to [attachChannel].  Every other sequence of calls, signals and
    timer expiries runs to the end; in particular the reconnection timer,
    which uses [dPtr->channel] unchecked, never finds it null. *)
Theorem no_null_dereference_without_null_attach svc ser owner ops :
  Forall (fun o => attaches_null o = false) ops ->
  is_Some (run ops (QAbstractGrpcClient svc ser owner)).
Proof.
  intros Hops.
  assert (forall w, consistent w -> is_Some (run ops w)) as Hgen.
  { induction Hops as [|o ops Ho Hops IH]; intros w Hc; simpl; [eauto|].
    destruct (exec_is_Some o w Hc Ho) as [w1 Hex]. rewrite Hex.
    apply IH. by eapply consistent_exec. }
  apply Hgen, consistent_init.
Qed.

Lemma no_null_dereference_without_null_attach_witness :
  is_Some (run abandonedOps freshClient) /\
  run [OpAttachChannel 1 None] freshClient = None.
Proof.
  split; [|reflexivity].
  apply (no_null_dereference_without_null_attach "svc"%string 0 1 abandonedOps).
  repeat constructor.
Defined.

(** ** Registry and connections *)

(** X13: [subscribe] connects the two paths of a stream before it registers
    it and the finished path disconnects both when it runs, so in every
    state between operations a stream whose paths are connected is in the
    registry, the error and the finished path of a stream are connected or
    disconnected together, a lambda holds its copy of the shared pointer
    exactly while its path is connected, and every registered stream has an
    object behind its pointer and went through [connect].  (A registered
    stream may have lost its connections, when its finished signal arrived
    inside the channel's subscribe.) *)
Theorem registry_matches_connections svc ser owner ops w p :
  run ops (QAbstractGrpcClient svc ser owner) = Some w ->
  (streamWiring w !! p = Some liveWiring -> p ∈ activeStreams (dPtr w)) /\
  (forall wi, streamWiring w !! p = Some wi ->
     connected (errorConnection wi) = connected (finishedConnection wi) /\
     captured (errorConnection wi) = connected (errorConnection wi) /\
     captured (finishedConnection wi) = connected (finishedConnection wi)) /\
  (p ∈ activeStreams (dPtr w) ->
     is_Some (streamObjs w !! p) /\ is_Some (streamWiring w !! p)).
Proof.
  intros Hc%reachable_consistent. split_and!.
  - intros Hwi. by destruct (c_wiring w Hc p _ Hwi) as [[_ ?]|?].
  - intros wi Hwi. by destruct (c_wiring w Hc p wi Hwi) as [[-> _]| ->].
  - intros Hp. split; [by apply (c_allocated w Hc)|by apply (c_wired w Hc)].
Qed.

Lemma registry_matches_connections_witness :
  streamWiring abandonedWorld !! 1 = Some liveWiring /\
  (1 ∈ activeStreams (dPtr abandonedWorld)) /\
  streamWiring abandonedWorld !! 0 = Some deadWiring.
Proof.
  assert (Hr : run abandonedOps freshClient = Some abandonedWorld)
    by (vm_compute; reflexivity).
  destruct (registry_matches_connections "svc"%string 0 1 abandonedOps
              abandonedWorld 1 Hr) as (Hto & _ & _).
  assert (Hlive : streamWiring abandonedWorld !! 1 = Some liveWiring)
    by (vm_compute; reflexivity).
  split; [exact Hlive|]. split; [exact (Hto Hlive)|]. vm_compute. reflexivity.
Defined.

(** ** attachChannel with a channel of the facade's thread *)

(** X15: for a channel that lives in the facade's thread, [attachChannel]
    called from any other thread throws [std::runtime_error] and leaves the
    facade as it was; called on the facade's thread it stores the channel
    and the channel's serializer and changes nothing else of the private
    part. *)
Theorem attachChannel_of_facade_thread_channel cur ch w :
  ch_thread ch = thread w ->
  (cur <> thread w ->
     attachChannel cur (Some ch) w = Thrown "Call from another thread"%string w) /\
  (cur = thread w ->
     exists w', attachChannel cur (Some ch) w = Done w' tt /\
       channel (dPtr w') = Some ch /\
       serializer (dPtr w') = ch_serializer ch /\
       service (dPtr w') = service (dPtr w) /\
       activeStreams (dPtr w') = activeStreams (dPtr w)).
Proof.
  intros Hth. unfold attachChannel. rewrite Hth. split.
  - intros Hne.
    assert ((thread w =? cur) = false) as -> by (apply Nat.eqb_neq; congruence).
    reflexivity.
  - intros ->. rewrite Nat.eqb_refl. simpl. eexists. split; [reflexivity|]. done.
Qed.

Lemma attachChannel_of_facade_thread_channel_witness :
  attachChannel 3 (Some (echoChannel 1)) freshClient
    = Thrown "Call from another thread"%string freshClient /\
  exists w', attachChannel 1 (Some (echoChannel 1)) freshClient = Done w' tt /\
    channel (dPtr w') = Some (echoChannel 1).
Proof.
  destruct (attachChannel_of_facade_thread_channel 3 (echoChannel 1) freshClient eq_refl)
    as [Hthrow _].
  destruct (attachChannel_of_facade_thread_channel 1 (echoChannel 1) freshClient eq_refl)
    as [_ Hset].
  split.
  - apply Hthrow. simpl. lia.
  - destruct (Hset eq_refl) as (w' & Hd & Hc & _). exists w'. split; assumption.
Defined.

(** ** The channel is driven from the facade's thread *)

Lemma blocked_callers_cases cur w :
  blocked_callers cur w = [] \/
  exists c, c <> thread w /\ blocked_callers cur w = [c].
Proof.
  destruct (decide (cur = thread w)) as [->|Hne].
  - left. apply blocked_callers_owner.
  - right. exists cur. split; [exact Hne|]. by apply blocked_callers_foreign.
Qed.

(** One operation sends at most one request, from the facade's thread. *)
Lemma exec_requests o w w' :
  exec o w = Some w' ->
  (channelLog w' = channelLog w /\ channelContext w' = channelContext w) \/
  (exists r c, channelLog w' = channelLog w ++ [r] /\
     channelContext w' = channelContext w ++ [c] /\
     on_facade_thread (thread w) c).
Proof.
  assert (Hgood : forall cur, on_facade_thread (thread w) (thread w, blocked_callers cur w)).
  { intros cur. split; [done|]. simpl.
    destruct (blocked_callers_cases cur w) as [->|(c & Hc & ->)]; eauto. }
  destruct o; simpl.
  - unfold attachChannel. destruct ch as [c|]; [|discriminate].
    destruct (negb _); simpl; intros [= <-]; simpl; auto.
  - rewrite call_body. destruct (channel (dPtr w)) as [ch|]; cbv zeta.
    + destruct (status_ne _ Ok); simpl; intros [= <-]; simpl; right; eauto.
    + simpl. intros [= <-]. simpl. auto.
  - rewrite call_async_body. destruct (channel (dPtr w)); simpl; intros [= <-];
      simpl; [right; eauto|auto].
  - destruct (channel (dPtr w)) as [ch|] eqn:Hch.
    + destruct (find_active (new_stream (mkStream method arg [handler] ch) w)
                  (nextPtr w)) as [[i it]|] eqn:Hfind.
      * rewrite subscribe_body, Hch. cbv zeta. rewrite Hfind. simpl.
        intros [= <-]. simpl. auto.
      * rewrite (subscribe_new_world cur method arg handler w ch Hch Hfind).
        simpl. intros [= <-]. simpl. right. eauto.
    + rewrite subscribe_body, Hch. simpl. intros [= <-]. simpl. auto.
  - intros [= <-]. unfold release. destruct (holders w !! p) as [[|n]|]; auto.
  - intros [= <-]. unfold reply_error.
    destruct (replyWiring w !! reply) as [wi|]; [|auto].
    destruct (connected (errorConnection wi)); simpl; auto.
  - intros [= <-]. unfold reply_finished.
    destruct (replyWiring w !! reply) as [wi|]; [|auto].
    destruct (connected (finishedConnection wi)); simpl; auto.
  - intros [= <-]. unfold stream_error.
    destruct (streamWiring w !! stream) as [wi|]; [|auto].
    destruct (connected (errorConnection wi)); simpl; auto.
  - intros [= <-]. unfold stream_finished.
    destruct (streamWiring w !! stream) as [wi|]; [|auto].
    destruct (connected (finishedConnection wi)); [|auto].
    unfold stream_finished_slot.
    destruct (find_active w stream) as [[? ?]|]; simpl; auto.
  - intros [= <-]. simpl. auto.
  - unfold timeout. destruct (timers w !! i) as [t|]; [|simpl; intros [= <-]; auto].
    destruct (deadline t <=? clock w); [|simpl; intros [= <-]; auto].
    unfold reconnect_slot. destruct (lock _ _); simpl.
    + destruct (channel (dPtr w)); simpl; [|discriminate].
      intros [= <-]. simpl. right. eexists _, _. split_and!; try done.
      split; simpl; auto.
    + intros [= <-]. simpl. auto.
Qed.

Lemma run_requests ops : forall w w',
  length (channelContext w) = length (channelLog w) ->
  Forall (on_facade_thread (thread w)) (channelContext w) ->
  run ops w = Some w' ->
  length (channelContext w') = length (channelLog w') /\
  Forall (on_facade_thread (thread w)) (channelContext w').
Proof.
  induction ops as [|o ops IH]; intros w w' Hlen Hall; simpl.
  - by intros [= <-].
  - destruct (exec o w) as [w1|] eqn:Hex; [|discriminate]. intros Hrun.
    destruct (exec_private o w w1 Hex) as (_ & Ht & _).
    rewrite <- Ht. apply (IH w1 w'); [| |exact Hrun].
    + destruct (exec_requests o w w1 Hex) as [[-> ->]|(r & c & -> & -> & _)];
        [done|]. rewrite !length_app. simpl. lia.
    + rewrite Ht.
      destruct (exec_requests o w w1 Hex) as [[_ ->]|(r & c & _ & -> & Hg)];
        [done|]. apply Forall_app. split; [done|]. by apply Forall_singleton.
Qed.

(** X16: every request the facade hands to the channel, through the two
    [call] functions, [subscribe] or the reconnection timer, from whichever
    thread the entry point was called, is issued from the facade's own
    thread, with nobody blocked or with the one foreign caller blocked that
    is waiting for the relayed invocation; the context trace has one entry
    per request. *)
Theorem requests_issued_on_facade_thread svc ser owner ops w :
  run ops (QAbstractGrpcClient svc ser owner) = Some w ->
  length (channelContext w) = length (channelLog w) /\
  Forall (on_facade_thread owner) (channelContext w).
Proof.
  intros Hrun.
  exact (run_requests ops (QAbstractGrpcClient svc ser owner) w eq_refl
           (Forall_nil_2 _) Hrun).
Qed.

Lemma requests_issued_on_facade_thread_witness :
  exists w,
    run (feedOps ++ [OpCall 9 "Ping"%string [] []; OpCallAsync 1 "Ping"%string []])
      freshClient = Some w /\
    channelContext w = [(1, []); (1, []); (1, [9]); (1, [])] /\
    Forall (on_facade_thread 1) (channelContext w).
Proof.
  eexists. split; [vm_compute; reflexivity|]. split; [vm_compute; reflexivity|].
  refine (proj2 (requests_issued_on_facade_thread "svc"%string 0 1
    (feedOps ++ [OpCall 9 "Ping"%string [] []; OpCallAsync 1 "Ping"%string []])
    _ _)).
  vm_compute. reflexivity.
Defined.
